(** * Great-circle formulas of [great-circle.mjs]

    The module exports one constant and three pure functions over
    [Cesium.Cartographic] values.  The functions are written once, over an
    interface of the JavaScript [number] operations they use, and then read
    in two arithmetics:

    - [Exact.RealNumber]: exact real arithmetic, in which the algebraic and
      range properties of the formulas are proved;
    - [Binary64.Number64]: IEEE-754 binary64 with round-to-nearest-even, the
      arithmetic of a JavaScript engine, in which the formulas are evaluated
      on concrete inputs.

    Definitions come first; the lemmas start at "Lemmas for every
    arithmetic". *)

From Stdlib Require Import Reals Lra Lia ZArith Bool List QArith Qreals RNsatz.
From Stdlib Require Floats.
Close Scope Q_scope.

(** ** The [number] operations used by the module *)

Class JSNumber (num : Type) : Type := {
  lit : Z -> num;                      (* an integer literal *)
  add : num -> num -> num;
  sub : num -> num -> num;
  mul : num -> num -> num;
  div : num -> num -> num;
  Math_sin : num -> num;
  Math_cos : num -> num;
  Math_sqrt : num -> num;
  Math_asin : num -> num;
  Math_atan2 : num -> num -> num
}.

(** [Cesium.Math.zeroToTwoPi] belongs to the Cesium library, which is not
    part of the module's source. *)
Class CesiumMath (num : Type) : Type := {
  zeroToTwoPi : num -> num
}.

Declare Scope js_scope.
Delimit Scope js_scope with js.
Notation "x + y" := (add x y) : js_scope.
Notation "x - y" := (sub x y) : js_scope.
Notation "x * y" := (mul x y) : js_scope.
Notation "x / y" := (div x y) : js_scope.

(** [Cesium.Cartographic]: the constructor takes longitude, latitude and
    height, in that order. *)
Record Cartographic (num : Type) : Type := mkCartographic {
  longitude : num;
  latitude : num;
  height : num
}.

Arguments mkCartographic {num} _ _ _.
Arguments longitude {num} _.
Arguments latitude {num} _.
Arguments height {num} _.

(** Two points at the same position: they differ at most in height. *)
Definition same_position {num : Type} (p q : Cartographic num) : Prop :=
  latitude p = latitude q /\ longitude p = longitude q.

Section GreatCircle.

Context {num : Type} {N : JSNumber num}.
Local Open Scope js_scope.

Definition MEAN_EARTH_RADIUS : num := lit 6371000.

(** A parameter with a default value: [None] is an omitted argument. *)
Definition default_to (dflt : num) (arg : option num) : num :=
  match arg with
  | Some v => v
  | None => dflt
  end.

Definition greatCircleGroundDistance
    (carto1 carto2 : Cartographic num) (radius : option num) : num :=
  let R := default_to MEAN_EARTH_RADIUS radius in
  let φ1 := latitude carto1 in
  let λ1 := longitude carto1 in
  let φ2 := latitude carto2 in
  let λ2 := longitude carto2 in
  let Δφ := φ2 - φ1 in
  let Δλ := λ2 - λ1 in
  let a := Math_sin (Δφ / lit 2) * Math_sin (Δφ / lit 2)
           + Math_cos φ1 * Math_cos φ2
             * Math_sin (Δλ / lit 2) * Math_sin (Δλ / lit 2) in
  let c := lit 2 * Math_atan2 (Math_sqrt a) (Math_sqrt (lit 1 - a)) in
  let d := R * c in
  d.

Definition greatCircleInitialBearing {C : CesiumMath num}
    (carto1 carto2 : Cartographic num) : num :=
  let φ1 := latitude carto1 in
  let φ2 := latitude carto2 in
  let Δλ := longitude carto2 - longitude carto1 in
  let x := Math_cos φ1 * Math_sin φ2
           - Math_sin φ1 * Math_cos φ2 * Math_cos Δλ in
  let y := Math_sin Δλ * Math_cos φ2 in
  let θ := Math_atan2 y x in
  zeroToTwoPi θ.

Definition greatCircleDestination
    (carto : Cartographic num) (distance initialBearing : num)
    (radius : option num) : Cartographic num :=
  let δ := distance / default_to MEAN_EARTH_RADIUS radius in
  let θ := initialBearing in
  let φ1 := latitude carto in
  let λ1 := longitude carto in
  let sinφ2 := Math_sin φ1 * Math_cos δ
               + Math_cos φ1 * Math_sin δ * Math_cos θ in
  let φ2 := Math_asin sinφ2 in
  let y := Math_sin θ * Math_sin δ * Math_cos φ1 in
  let x := Math_cos δ - Math_sin φ1 * sinφ2 in
  let λ2 := λ1 + Math_atan2 y x in
  let lat := φ2 in
  let lon := λ2 in
  mkCartographic lon lat (lit 0).

(** *** The locals the properties speak about

    Each is the expression bound to the local of that name in the function
    above; [ground_distance_unfold] and [destination_unfold] tie them to the
    functions. *)

(** [a] of [greatCircleGroundDistance]. *)
Definition haversine_a (carto1 carto2 : Cartographic num) : num :=
  let Δφ := latitude carto2 - latitude carto1 in
  let Δλ := longitude carto2 - longitude carto1 in
  Math_sin (Δφ / lit 2) * Math_sin (Δφ / lit 2)
  + Math_cos (latitude carto1) * Math_cos (latitude carto2)
    * Math_sin (Δλ / lit 2) * Math_sin (Δλ / lit 2).

(** [c] of [greatCircleGroundDistance]. *)
Definition central_angle (carto1 carto2 : Cartographic num) : num :=
  let a := haversine_a carto1 carto2 in
  lit 2 * Math_atan2 (Math_sqrt a) (Math_sqrt (lit 1 - a)).

(** [δ] of [greatCircleDestination]. *)
Definition angular_distance (distance : num) (radius : option num) : num :=
  distance / default_to MEAN_EARTH_RADIUS radius.

(** [sinφ2] of [greatCircleDestination]. *)
Definition destination_sin_phi2
    (carto : Cartographic num) (distance initialBearing : num)
    (radius : option num) : num :=
  let δ := angular_distance distance radius in
  Math_sin (latitude carto) * Math_cos δ
  + Math_cos (latitude carto) * Math_sin δ * Math_cos initialBearing.

(** [y] and [x] of [greatCircleDestination]. *)
Definition destination_y
    (carto : Cartographic num) (distance initialBearing : num)
    (radius : option num) : num :=
  let δ := angular_distance distance radius in
  Math_sin initialBearing * Math_sin δ * Math_cos (latitude carto).

Definition destination_x
    (carto : Cartographic num) (distance initialBearing : num)
    (radius : option num) : num :=
  let δ := angular_distance distance radius in
  Math_cos δ
  - Math_sin (latitude carto)
    * destination_sin_phi2 carto distance initialBearing radius.

End GreatCircle.

(** ** Exact real arithmetic

    A [number] is a real and every operation is exact.  There is no NaN:
    where JavaScript returns NaN (the square root of a negative number, the
    arcsine of a number outside [-1, 1]) the library functions return some
    real; [haversine_sqrt_arguments] and [destination_asin_argument] show
    that the formulas never reach these arguments. *)

Module Exact.

Local Open Scope R_scope.

(** [Math.atan2 y x] on real arguments: the angle of the point [(x, y)],
    in (-π, π]; 0 at the origin. *)
Definition atan2 (y x : R) : R :=
  if Rlt_dec 0 x then atan (y / x)
  else if Rlt_dec x 0 then
    if Rle_dec 0 y then atan (y / x) + PI else atan (y / x) - PI
  else if Rlt_dec 0 y then PI / 2
  else if Rlt_dec y 0 then - (PI / 2)
  else 0.

#[export] Instance RealNumber : JSNumber R := {|
  lit := IZR;
  add := Rplus;
  sub := Rminus;
  mul := Rmult;
  div := Rdiv;
  Math_sin := sin;
  Math_cos := cos;
  Math_sqrt := sqrt;
  Math_asin := asin;
  Math_atan2 := atan2
|}.

(** The remainder operator [%] on reals: the quotient is truncated toward
    zero, so the result has the sign of the dividend. *)
Definition trunc (q : R) : Z :=
  if Rle_dec 0 q then Int_part q else (- Int_part (- q))%Z.

Definition rem (x y : R) : R := x - y * IZR (trunc (x / y)).

(** Modelled from the spec: [Cesium.Math.zeroToTwoPi] is a function of the
    Cesium library and is absent from the source; the spec gives the
    normalization as [((θ mod 2π) + 2π) mod 2π], mapping any real angle to
    [0, 2π). *)
Definition zeroToTwoPi_spec (θ : R) : R :=
  rem (rem θ (2 * PI) + 2 * PI) (2 * PI).

#[export] Instance RealCesiumMath : CesiumMath R := {|
  zeroToTwoPi := zeroToTwoPi_spec
|}.


(** The cosine of the angle between the directions of two points. *)
Definition dot (p q : Cartographic R) : R :=
  sin (latitude p) * sin (latitude q)
  + cos (latitude p) * cos (latitude q) * cos (longitude q - longitude p).

(** The point moved east by [t] radians. *)
Definition rotate (t : R) (p : Cartographic R) : Cartographic R :=
  mkCartographic (longitude p + t) (latitude p) (height p).

(** The point mirrored in the equatorial plane. *)
Definition mirror (p : Cartographic R) : Cartographic R :=
  mkCartographic (longitude p) (- latitude p) (height p).

End Exact.

(** ** IEEE-754 binary64 arithmetic *)

Module Binary64.

Import Stdlib.Floats.Floats.
Local Open Scope float_scope.

(** The value of an integer literal (exact below 2^53). *)
Definition of_Z (z : Z) : float :=
  match z with
  | Z0 => zero
  | Zpos _ => of_uint63 (Uint63.of_Z z)
  | Zneg p => - of_uint63 (Uint63.of_Z (Zpos p))
  end.

(** What an engine's math library returns on ordinary arguments.  ECMAScript
    leaves the accuracy of these functions to the implementation. *)
Record Host : Type := {
  host_sin : float -> float;
  host_cos : float -> float;
  host_asin : float -> float;
  host_atan2 : float -> float -> float
}.

Section WithHost.

Variable h : Host.

(** The cases ECMAScript fixes for every implementation come first. *)
Definition sin64 (x : float) : float :=
  if is_nan x || is_infinity x then nan
  else if is_zero x then x
  else host_sin h x.

Definition cos64 (x : float) : float :=
  if is_nan x || is_infinity x then nan
  else if is_zero x then one
  else host_cos h x.

Definition asin64 (x : float) : float :=
  if is_nan x then nan
  else if (one <? x) || (x <? - one) then nan
  else if is_zero x then x
  else host_asin h x.

Definition atan2_64 (y x : float) : float :=
  if is_nan y || is_nan x then nan
  else host_atan2 h y x.

Definition Number64 : JSNumber float :=
  Build_JSNumber float
    of_Z                (* lit *)
    PrimFloat.add PrimFloat.sub PrimFloat.mul PrimFloat.div
    sin64 cos64
    PrimFloat.sqrt      (* Math.sqrt is the IEEE square root *)
    asin64 atan2_64.

End WithHost.

(** *** The real value of a binary64 number *)

(** The rational a finite binary64 number stands for: [± m · 2^e]
    (0 for the infinities and NaN, which have no value). *)
Definition SF2Q (f : spec_float) : Q :=
  match f with
  | S754_finite s m e =>
      let n := if s then Zneg m else Zpos m in
      match e with
      | Z0 => inject_Z n
      | Zpos p => inject_Z (n * Z.pow_pos 2 p)
      | Zneg p => Qmake n (Pos.pow 2 p)
      end
  | _ => 0%Q
  end.

Definition F2Q (x : float) : Q := SF2Q (Prim2SF x).

Definition F2R (x : float) : R := Q2R (F2Q x).

(** The midpoints between [v] and its two neighbours in binary64. *)
Definition mid_below (v : float) : Q := ((F2Q (next_down v) + F2Q v) / 2)%Q.

Definition mid_above (v : float) : Q := ((F2Q v + F2Q (next_up v)) / 2)%Q.

(** [v] is the binary64 number nearest to the real [r], with no tie: the
    value a correctly rounding implementation returns for [r]. *)
Definition rounds_to (r : R) (v : float) : Prop :=
  (Q2R (mid_below v) < r < Q2R (mid_above v))%R.

(** Partial sums of the sine and cosine series at the rational [m / d],
    kept over a common denominator: the sum of the terms of index 0 to [n]
    is [sum_num / denom], the term of index [n] is [term_num / denom]. *)
Record partial_sum : Type := mkPartialSum {
  sum_num : Z;
  term_num : Z;
  denom : Z
}.

Fixpoint sin_sums (m d : Z) (n : nat) : partial_sum :=
  match n with
  | O => mkPartialSum m m d
  | S k =>
      let p := sin_sums m d k in
      let c := (d * d * (Z.of_nat (2 * k + 2) * Z.of_nat (2 * k + 3)))%Z in
      let t := (- (term_num p * (m * m)))%Z in
      mkPartialSum (sum_num p * c + t) t (denom p * c)
  end.

Fixpoint cos_sums (m d : Z) (n : nat) : partial_sum :=
  match n with
  | O => mkPartialSum 1 1 1
  | S k =>
      let p := cos_sums m d k in
      let c := (d * d * (Z.of_nat (2 * k + 1) * Z.of_nat (2 * k + 2)))%Z in
      let t := (- (term_num p * (m * m)))%Z in
      mkPartialSum (sum_num p * c + t) t (denom p * c)
  end.

Definition partial_sum_value (p : partial_sum) : Q :=
  Qmake (sum_num p) (Z.to_pos (denom p)).

Definition sin_sum (a : Q) (n : nat) : Q :=
  partial_sum_value (sin_sums (Qnum a) (Zpos (Qden a)) n).

Definition cos_sum (a : Q) (n : nat) : Q :=
  partial_sum_value (cos_sums (Qnum a) (Zpos (Qden a)) n).

(** *** A host given by tables *)

(** A finite table of values of a function. *)
Fixpoint lookup (table : list (float * float)) (x : float) : float :=
  match table with
  | nil => zero
  | cons (arg, value) rest => if arg =? x then value else lookup rest x
  end.

(** Sines and cosines at the arguments the two evaluations below reach.
    [sin_table_rounded] and [cos_table_rounded] show that each value is the
    binary64 number nearest to the real sine or cosine of its argument. *)
Definition sin_table : list (float * float) :=
  (0x1.3c9eecbfb15b5p-4, 0x1.3c4e3a51129b9p-4) ::   (* sin 0.0773 *)
  (0x1.921fb54442d18p+0, 0x1p+0) ::                  (* sin (π/2) *)
  (0x1.6dd97f62b6ae8p+0, 0x1.fade60d0cd541p-1) ::   (* sin 1.4291 *)
  (0x1.2231af0c61181p-3, 0x1.21395648fecf0p-3) ::   (* sin 0.1416963… *)
  nil.

Definition cos_table : list (float * float) :=
  ( 0x1.3c9eecbfb15b5p-4, 0x1.fe78992d500aep-1) ::  (* cos 0.0773 *)
  (-0x1.3c9eecbfb15b5p-4, 0x1.fe78992d500aep-1) ::  (* cos -0.0773 *)
  ( 0x1.6dd97f62b6ae8p+0, 0x1.21395648fecf1p-3) ::  (* cos 1.4291 *)
  ( 0x1.2231af0c61181p-3, 0x1.fade60d0cd541p-1) ::  (* cos 0.1416963… *)
  nil.

(** A host returns the tabulated values at the tabulated arguments. *)
Definition agrees_with_tables (h : Host) : Prop :=
  Forall (fun entry => host_sin h (fst entry) = snd entry) sin_table
  /\ Forall (fun entry => host_cos h (fst entry) = snd entry) cos_table.

(** The tables as a host.  Arcsine and arctangent are only met on the
    arguments that [asin64] and [atan2_64] decide themselves. *)
Definition tabulated_host : Host := {|
  host_sin := lookup sin_table;
  host_cos := lookup cos_table;
  host_asin := fun _ => zero;
  host_atan2 := fun _ _ => zero
|}.

(** Two antipodal points: latitude ∓0.0773 rad (about 4.43°), longitudes 0
    and π. *)
Definition south_point : Cartographic float :=
  mkCartographic 0 (-0x1.3c9eecbfb15b5p-4) 0.

Definition north_point : Cartographic float :=
  mkCartographic 0x1.921fb54442d18p+1 0x1.3c9eecbfb15b5p-4 0.

(** A point at latitude 1.4291 rad (about 81.9°), and the angular distance
    0.14169632679489655 rad that leads from it to the pole. *)
Definition high_latitude_point : Cartographic float :=
  mkCartographic 0 0x1.6dd97f62b6ae8p+0 0.

Definition distance_to_pole : float := 0x1.2231af0c61181p-3.

(** *** Values that are not finite *)

(** NaN or an infinity. *)
Definition non_finite (x : float) : bool := is_nan x || is_infinity x.

Definition SFnon_finite (f : spec_float) : bool :=
  match f with
  | S754_nan | S754_infinity _ => true
  | S754_zero _ | S754_finite _ _ _ => false
  end.

End Binary64.

(** ** Lemmas for every arithmetic *)

Section Generic.

Context {num : Type} {N : JSNumber num} {C : CesiumMath num}.
Local Open Scope js_scope.

Lemma ground_distance_unfold (carto1 carto2 : Cartographic num) radius :
  greatCircleGroundDistance carto1 carto2 radius
  = default_to MEAN_EARTH_RADIUS radius * central_angle carto1 carto2.
Proof. reflexivity. Qed.

Lemma destination_unfold (carto : Cartographic num) distance bearing radius :
  greatCircleDestination carto distance bearing radius
  = mkCartographic
      (longitude carto
       + Math_atan2 (destination_y carto distance bearing radius)
                    (destination_x carto distance bearing radius))
      (Math_asin (destination_sin_phi2 carto distance bearing radius))
      (lit 0).
Proof. reflexivity. Qed.

(** C9: none of the three functions reads the height of a point: runs
    whose points differ only in height return the same results, and
    [greatCircleDestination] returns height 0.  This holds in every
    arithmetic. *)
Theorem height_never_read
    (carto1 carto1' carto2 carto2' : Cartographic num)
    (distance bearing : num) (radius : option num)
    (H1 : same_position carto1 carto1')
    (H2 : same_position carto2 carto2') :
  greatCircleGroundDistance carto1 carto2 radius
  = greatCircleGroundDistance carto1' carto2' radius
  /\ greatCircleInitialBearing carto1 carto2
     = greatCircleInitialBearing carto1' carto2'
  /\ greatCircleDestination carto1 distance bearing radius
     = greatCircleDestination carto1' distance bearing radius
  /\ height (greatCircleDestination carto1 distance bearing radius) = lit 0.
Proof.
  destruct H1 as [Hlat1 Hlon1], H2 as [Hlat2 Hlon2].
  unfold greatCircleGroundDistance, greatCircleInitialBearing,
    greatCircleDestination.
  cbv zeta. rewrite Hlat1, Hlon1, Hlat2, Hlon2.
  repeat split.
Qed.

End Generic.

(** ** Facts of exact real arithmetic *)

Module ExactFacts.

Import Exact.
Local Open Scope R_scope.

Lemma sin_sqr_le_1 (x : R) : 0 <= sin x * sin x <= 1.
Proof.
  pose proof (sin2_cos2 x) as E. unfold Rsqr in E.
  pose proof (Rle_0_sqr (sin x)) as Hs. pose proof (Rle_0_sqr (cos x)) as Hc.
  unfold Rsqr in Hs, Hc. lra.
Qed.

Lemma cos_sqr_le_1 (x : R) : 0 <= cos x * cos x <= 1.
Proof.
  pose proof (sin2_cos2 x) as E. unfold Rsqr in E.
  pose proof (Rle_0_sqr (sin x)) as Hs. pose proof (Rle_0_sqr (cos x)) as Hc.
  unfold Rsqr in Hs, Hc. lra.
Qed.

(** The product of the cosines of two angles, through their half sum and
    half difference. *)
Lemma cos_diff_mul_cos_sum (u v : R) :
  cos (v - u) * cos (v + u) = cos v * cos v - sin u * sin u.
Proof.
  rewrite cos_minus, cos_plus.
  pose proof (sin2_cos2 u) as Eu. pose proof (sin2_cos2 v) as Ev.
  unfold Rsqr in Eu, Ev.
  replace ((cos v * cos u + sin v * sin u) * (cos v * cos u - sin v * sin u))
    with (cos v * cos v * (cos u * cos u) - sin v * sin v * (sin u * sin u))
    by ring.
  replace (cos u * cos u) with (1 - sin u * sin u) by lra.
  replace (sin v * sin v) with (1 - cos v * cos v) by lra.
  ring.
Qed.

Lemma cos_mul_cos (p q : R) :
  cos p * cos q
  = cos ((p + q) / 2) * cos ((p + q) / 2)
    - sin ((q - p) / 2) * sin ((q - p) / 2).
Proof.
  rewrite <- cos_diff_mul_cos_sum.
  f_equal; f_equal; lra.
Qed.

(** The haversine intermediate is a convex combination of two squares. *)
Lemma haversine_a_convex (p1 p2 : Cartographic R) :
  let s := sin ((longitude p2 - longitude p1) / 2) in
  let u := sin ((latitude p2 - latitude p1) / 2) in
  let v := cos ((latitude p1 + latitude p2) / 2) in
  haversine_a p1 p2 = u * u * (1 - s * s) + v * v * (s * s).
Proof.
  unfold haversine_a; simpl.
  rewrite (cos_mul_cos (latitude p1) (latitude p2)). ring.
Qed.

Lemma haversine_a_range (p1 p2 : Cartographic R) :
  0 <= haversine_a p1 p2 <= 1.
Proof.
  rewrite haversine_a_convex.
  pose proof (sin_sqr_le_1 ((longitude p2 - longitude p1) / 2)) as Hs.
  pose proof (sin_sqr_le_1 ((latitude p2 - latitude p1) / 2)) as Hu.
  pose proof (cos_sqr_le_1 ((latitude p1 + latitude p2) / 2)) as Hv.
  revert Hs Hu Hv.
  generalize (sin ((longitude p2 - longitude p1) / 2)
              * sin ((longitude p2 - longitude p1) / 2)).
  generalize (sin ((latitude p2 - latitude p1) / 2)
              * sin ((latitude p2 - latitude p1) / 2)).
  generalize (cos ((latitude p1 + latitude p2) / 2)
              * cos ((latitude p1 + latitude p2) / 2)).
  intros v u s Hs Hu Hv. nra.
Qed.

(** [sinφ2] is one minus, and minus one plus, half a sum of squares. *)
Lemma sin_phi2_range (carto : Cartographic R) (distance bearing : R) radius :
  -1 <= destination_sin_phi2 carto distance bearing radius <= 1.
Proof.
  unfold destination_sin_phi2.
  generalize (angular_distance distance radius); intros δ; simpl.
  pose proof (sin2_cos2 (latitude carto)) as E1.
  pose proof (sin2_cos2 δ) as E2.
  pose proof (cos_sqr_le_1 bearing) as Ht.
  unfold Rsqr in E1, E2.
  revert E1 E2 Ht.
  generalize (sin (latitude carto)) (cos (latitude carto)) (sin δ) (cos δ)
             (cos bearing).
  intros A B D C t E1 E2 Ht.
  assert (H0 : 0 <= D * D * (1 - t * t)).
  { apply Rmult_le_pos; [ apply Rle_0_sqr | lra ]. }
  pose proof (Rle_0_sqr (A - C)) as H1.
  pose proof (Rle_0_sqr (B - D * t)) as H2.
  pose proof (Rle_0_sqr (A + C)) as H3.
  pose proof (Rle_0_sqr (B + D * t)) as H4.
  unfold Rsqr in *.
  split; nra.
Qed.

(** *** [atan2] *)

Lemma atan_nonneg (x : R) : 0 <= x -> 0 <= atan x.
Proof.
  intros [Hx | <-].
  - left. rewrite <- atan_0. now apply atan_increasing.
  - rewrite atan_0. lra.
Qed.

Lemma atan_nonpos (x : R) : x <= 0 -> atan x <= 0.
Proof.
  intros [Hx | ->].
  - left. rewrite <- atan_0. now apply atan_increasing.
  - rewrite atan_0. lra.
Qed.

Lemma atan_pos (x : R) : 0 < x -> 0 < atan x.
Proof. intros Hx. rewrite <- atan_0. now apply atan_increasing. Qed.

Lemma div_nonneg (y x : R) : 0 <= y -> 0 < x -> 0 <= y / x.
Proof.
  intros Hy Hx. unfold Rdiv. apply Rmult_le_pos; [ exact Hy | ].
  left. now apply Rinv_0_lt_compat.
Qed.

Lemma div_neg_nonpos (y x : R) : 0 <= y -> x < 0 -> y / x <= 0.
Proof.
  intros Hy Hx. unfold Rdiv.
  pose proof (Rinv_lt_0_compat x Hx) as Hi. nra.
Qed.

Lemma div_neg_neg (y x : R) : y < 0 -> x < 0 -> 0 < y / x.
Proof.
  intros Hy Hx. unfold Rdiv.
  pose proof (Rinv_lt_0_compat x Hx) as Hi. nra.
Qed.

(** The result of [atan2] is an angle of (-π, π]. *)
Lemma atan2_bound (y x : R) : - PI < atan2 y x <= PI.
Proof.
  pose proof PI_RGT_0 as Hpi.
  pose proof (atan_bound (y / x)) as Hb.
  unfold atan2.
  destruct (Rlt_dec 0 x) as [Hx | Hx]; [ lra | ].
  destruct (Rlt_dec x 0) as [Hx' | Hx'].
  - destruct (Rle_dec 0 y) as [Hy | Hy].
    + pose proof (atan_nonpos _ (div_neg_nonpos y x Hy Hx')). lra.
    + assert (Hy' : y < 0) by lra.
      pose proof (atan_pos _ (div_neg_neg y x Hy' Hx')). lra.
  - destruct (Rlt_dec 0 y); [ lra | ].
    destruct (Rlt_dec y 0); lra.
Qed.

(** On two non-negative arguments the angle is in the first quadrant. *)
Lemma atan2_first_quadrant (y x : R) :
  0 <= y -> 0 <= x -> 0 <= atan2 y x <= PI / 2.
Proof.
  intros Hy Hx.
  pose proof PI_RGT_0 as Hpi.
  unfold atan2.
  destruct (Rlt_dec 0 x) as [Hx' | Hx'].
  - pose proof (atan_bound (y / x)) as Hb.
    pose proof (atan_nonneg _ (div_nonneg y x Hy Hx')). lra.
  - destruct (Rlt_dec x 0); [ lra | ].
    destruct (Rlt_dec 0 y); [ lra | ].
    destruct (Rlt_dec y 0); lra.
Qed.

Lemma atan2_0_nonneg (x : R) : 0 <= x -> atan2 0 x = 0.
Proof.
  intros Hx. unfold atan2.
  destruct (Rlt_dec 0 x).
  - unfold Rdiv. rewrite Rmult_0_l. apply atan_0.
  - destruct (Rlt_dec x 0); [ lra | ].
    destruct (Rlt_dec 0 0); [ lra | ].
    destruct (Rlt_dec 0 0); [ lra | reflexivity ].
Qed.

Lemma atan2_pos_0 (y : R) : 0 < y -> atan2 y 0 = PI / 2.
Proof.
  intros Hy. unfold atan2.
  destruct (Rlt_dec 0 0); [ lra | ].
  destruct (Rlt_dec 0 y); [ reflexivity | lra ].
Qed.

(** *** The remainder and [zeroToTwoPi] *)

Lemma rem_bound (x y : R) :
  0 < y -> - y < rem x y < y /\ (0 <= x -> 0 <= rem x y).
Proof.
  intros Hy. unfold rem, trunc.
  assert (Ex : x = y * (x / y)) by (field; lra).
  destruct (Rle_dec 0 (x / y)) as [Hq | Hq].
  - destruct (base_Int_part (x / y)) as [Hlo Hhi].
    revert Hlo Hhi. generalize (IZR (Int_part (x / y))). intros n Hlo Hhi.
    revert Ex Hq Hlo Hhi. generalize (x / y). intros q Ex Hq Hlo Hhi.
    subst x. split; [ split | intros _ ]; nra.
  - destruct (base_Int_part (- (x / y))) as [Hlo Hhi].
    rewrite opp_IZR.
    revert Hlo Hhi. generalize (IZR (Int_part (- (x / y)))). intros n Hlo Hhi.
    revert Ex Hq Hlo Hhi. generalize (x / y). intros q Ex Hq Hlo Hhi.
    subst x. split; [ split | intros Hx ]; nra.
Qed.

(** The remainder differs from the dividend by a multiple of the divisor. *)
Lemma rem_congruent (x y : R) : exists k : Z, rem x y = x + y * IZR k.
Proof.
  exists (- trunc (x / y))%Z. unfold rem. rewrite opp_IZR. ring.
Qed.

Lemma zeroToTwoPi_range (θ : R) : 0 <= zeroToTwoPi_spec θ < 2 * PI.
Proof.
  pose proof PI_RGT_0 as Hpi.
  assert (H2pi : 0 < 2 * PI) by lra.
  unfold zeroToTwoPi_spec.
  destruct (rem_bound θ (2 * PI) H2pi) as [[Hlo Hhi] _].
  destruct (rem_bound (rem θ (2 * PI) + 2 * PI) (2 * PI) H2pi)
    as [[_ Hhi'] Hpos].
  split; [ apply Hpos; lra | exact Hhi' ].
Qed.

(** The normalized angle is the same direction as the given one. *)
Lemma zeroToTwoPi_congruent (θ : R) :
  exists k : Z, zeroToTwoPi_spec θ = θ + 2 * PI * IZR k.
Proof.
  unfold zeroToTwoPi_spec.
  destruct (rem_congruent θ (2 * PI)) as [k1 E1].
  destruct (rem_congruent (rem θ (2 * PI) + 2 * PI) (2 * PI)) as [k2 E2].
  exists (k1 + 1 + k2)%Z. rewrite E2, E1, !plus_IZR. simpl. ring.
Qed.

(** An angle already in [0, 2π) is returned as it is. *)
Lemma zeroToTwoPi_fixed (θ : R) : 0 <= θ < 2 * PI -> zeroToTwoPi_spec θ = θ.
Proof.
  intros Hθ.
  destruct (zeroToTwoPi_congruent θ) as [k E].
  pose proof (zeroToTwoPi_range θ) as Hr. rewrite E in Hr.
  assert (Hk : (-1 < k < 1)%Z).
  { split; apply lt_IZR; simpl; nra. }
  assert (k = 0%Z) by lia. subst k. rewrite E. simpl. ring.
Qed.

End ExactFacts.

(** ** Properties of the three functions in exact real arithmetic *)

Module ExactProperties.

Import Exact ExactFacts.
Local Open Scope R_scope.

Lemma central_angle_range (carto1 carto2 : Cartographic R) :
  0 <= central_angle carto1 carto2 <= PI.
Proof.
  unfold central_angle.
  generalize (haversine_a carto1 carto2); intros a; simpl.
  pose proof (atan2_first_quadrant (sqrt a) (sqrt (1 - a))
                (sqrt_pos _) (sqrt_pos _)).
  lra.
Qed.




(** The bearing is the direction [atan2 y x] of the formula, up to whole
    turns. *)
Lemma initial_bearing_direction (carto1 carto2 : Cartographic R) :
  let Δλ := longitude carto2 - longitude carto1 in
  let x := cos (latitude carto1) * sin (latitude carto2)
           - sin (latitude carto1) * cos (latitude carto2) * cos Δλ in
  let y := sin Δλ * cos (latitude carto2) in
  exists k : Z,
    greatCircleInitialBearing carto1 carto2 = atan2 y x + 2 * PI * IZR k.
Proof.
  intros Δλ x y. unfold greatCircleInitialBearing; simpl.
  apply zeroToTwoPi_congruent.
Qed.

(** C7: [greatCircleGroundDistance] is symmetric under swapping its two
    points, for every radius (given or defaulted). *)
Theorem ground_distance_symmetric
    (carto1 carto2 : Cartographic R) (radius : option R) :
  greatCircleGroundDistance carto1 carto2 radius
  = greatCircleGroundDistance carto2 carto1 radius.
Proof.
  assert (Ea : haversine_a carto1 carto2 = haversine_a carto2 carto1).
  { unfold haversine_a; simpl.
    replace ((latitude carto1 - latitude carto2) / 2)
      with (- ((latitude carto2 - latitude carto1) / 2)) by lra.
    replace ((longitude carto1 - longitude carto2) / 2)
      with (- ((longitude carto2 - longitude carto1) / 2)) by lra.
    rewrite !sin_neg. ring. }
  rewrite !ground_distance_unfold. unfold central_angle. now rewrite Ea.
Qed.

(** C10: [greatCircleGroundDistance] is homogeneous of degree 1 in its
    radius: the distance on the sphere of radius [r] is [r] times the
    distance on the unit sphere. *)
Theorem ground_distance_linear_in_radius
    (carto1 carto2 : Cartographic R) (r : R) :
  greatCircleGroundDistance carto1 carto2 (Some r)
  = r * greatCircleGroundDistance carto1 carto2 (Some 1).
Proof.
  rewrite !ground_distance_unfold. simpl. ring.
Qed.









(** C6: the longitude returned by [greatCircleDestination] is the input
    longitude plus [atan2 y x], with [y = sin θ · sin δ · cos φ1] and
    [x = cos δ − sin φ1 · sinφ2], not renormalized; from a longitude of
    (-π, π] it can leave (-π, π]. *)
Theorem destination_longitude_verbatim :
  (forall (carto : Cartographic R) (distance bearing : R) radius,
     let δ := distance / default_to MEAN_EARTH_RADIUS radius in
     let φ1 := latitude carto in
     let sinφ2 := sin φ1 * cos δ + cos φ1 * sin δ * cos bearing in
     let y := sin bearing * sin δ * cos φ1 in
     let x := cos δ - sin φ1 * sinφ2 in
     longitude (greatCircleDestination carto distance bearing radius)
     = longitude carto + atan2 y x)
  /\ (exists (carto : Cartographic R) (distance bearing : R) radius,
        - PI < longitude carto <= PI
        /\ ~ (- PI
              < longitude (greatCircleDestination carto distance bearing radius)
              <= PI)).
Proof.
  split; [ reflexivity | ].
  exists (mkCartographic PI 0 0), (PI / 2), (PI / 2), (Some 1).
  pose proof PI_RGT_0 as Hpi.
  split; [ simpl; lra | ].
  rewrite destination_unfold.
  unfold destination_x, destination_y, destination_sin_phi2, angular_distance.
  simpl.
  replace (PI / 2 / 1) with (PI / 2) by field.
  rewrite sin_0, cos_0, sin_PI2, cos_PI2.
  replace (1 * 1 * 1) with 1 by ring.
  replace (0 - 0 * (0 * 0 + 1 * 1 * 0)) with 0 by ring.
  rewrite atan2_pos_0 by lra. lra.
Qed.

(** C1, as amended: the function applies no clamp, and in exact real
    arithmetic needs none: for all real latitudes and longitudes the
    intermediate [a] lies in [0, 1], so neither square root is taken of a
    negative number; the distance is the radius times
    [2 · atan2 (√a) (√(1 − a))] on that unclamped [a]. *)
Theorem haversine_sqrt_arguments
    (carto1 carto2 : Cartographic R) (radius : option R) :
  0 <= haversine_a carto1 carto2 <= 1
  /\ 0 <= 1 - haversine_a carto1 carto2
  /\ greatCircleGroundDistance carto1 carto2 radius
     = default_to MEAN_EARTH_RADIUS radius
       * (2 * atan2 (sqrt (haversine_a carto1 carto2))
                    (sqrt (1 - haversine_a carto1 carto2))).
Proof.
  pose proof (haversine_a_range carto1 carto2) as Ha.
  split; [ exact Ha | split; [ lra | reflexivity ] ].
Qed.

(** C2, as amended: the function applies no clamp, and in exact real
    arithmetic needs none: for every real latitude, distance, bearing and
    radius, [sinφ2] lies in [-1, 1], so the returned latitude
    [asin sinφ2] is the angle of [-π/2, π/2] whose sine is [sinφ2]. *)
Theorem destination_asin_argument
    (carto : Cartographic R) (distance bearing : R) (radius : option R) :
  let sinφ2 := destination_sin_phi2 carto distance bearing radius in
  let φ2 := latitude (greatCircleDestination carto distance bearing radius) in
  -1 <= sinφ2 <= 1
  /\ φ2 = asin sinφ2
  /\ sin φ2 = sinφ2
  /\ - (PI / 2) <= φ2 <= PI / 2.
Proof.
  intros sinφ2 φ2.
  pose proof (sin_phi2_range carto distance bearing radius) as Hs.
  fold sinφ2 in Hs.
  assert (E : φ2 = asin sinφ2) by reflexivity.
  split; [ exact Hs | split; [ exact E | split ] ].
  - rewrite E. now apply sin_asin.
  - rewrite E. apply asin_bound.
Qed.

Lemma height_never_read_witness :
  same_position (mkCartographic 1 2 3) (mkCartographic 1 2 40)
  /\ same_position (mkCartographic 5 6 7) (mkCartographic 5 6 80)
  /\ greatCircleGroundDistance
       (mkCartographic 1 2 3) (mkCartographic 5 6 7) None
     = greatCircleGroundDistance
         (mkCartographic 1 2 40) (mkCartographic 5 6 80) None.
Proof.
  assert (H1 : same_position (mkCartographic 1 2 3) (mkCartographic 1 2 40))
    by (split; reflexivity).
  assert (H2 : same_position (mkCartographic 5 6 7) (mkCartographic 5 6 80))
    by (split; reflexivity).
  split; [ exact H1 | split; [ exact H2 | ] ].
  apply (height_never_read
           (N := RealNumber) (C := RealCesiumMath)
           (mkCartographic 1 2 3) (mkCartographic 1 2 40)
           (mkCartographic 5 6 7) (mkCartographic 5 6 80)
           0 0 None H1 H2).
Defined.

End ExactProperties.

(** ** The formulas evaluated in binary64 *)

Module Binary64Facts.

Import Stdlib.Floats.Floats.
Import Binary64.

Local Open Scope R_scope.

Lemma Q2R_inject_Z (z : Z) : Q2R (inject_Z z) = IZR z.
Proof. unfold Q2R; simpl. field. Qed.

Lemma F2Q_examples :
  (F2Q 1 == 1)%Q
  /\ (F2Q 0.5 == 1 # 2)%Q
  /\ (F2Q (-3) == -3)%Q
  /\ (F2Q 0x1.921fb54442d18p+1 == 884279719003555 # 281474976710656)%Q
  /\ (mid_below 1 == 1 - (1 # 2 ^ 54))%Q
  /\ (mid_above 1 == 1 + (1 # 2 ^ 53))%Q.
Proof. repeat split; vm_compute; reflexivity. Qed.

(** *** The rational partial sums are the partial sums of the series *)

Lemma sin_term_S (a : R) (k : nat) :
  sin_term a (S k)
  = sin_term a k * (- (a * a)) / (INR (2 * k + 2) * INR (2 * k + 3)).
Proof.
  unfold sin_term.
  replace (2 * S k + 1)%nat with (S (S (2 * k + 1))) by lia.
  replace (2 * k + 3)%nat with (S (S (2 * k + 1))) by lia.
  replace (2 * k + 2)%nat with (S (2 * k + 1)) by lia.
  rewrite !fact_simpl, !mult_INR.
  pose proof (INR_fact_neq_0 (2 * k + 1)) as Hf.
  assert (H1 : INR (S (2 * k + 1)) <> 0) by (apply not_0_INR; lia).
  assert (H2 : INR (S (S (2 * k + 1))) <> 0) by (apply not_0_INR; lia).
  simpl pow. field. repeat split; assumption.
Qed.

Lemma cos_term_S (a : R) (k : nat) :
  cos_term a (S k)
  = cos_term a k * (- (a * a)) / (INR (2 * k + 1) * INR (2 * k + 2)).
Proof.
  unfold cos_term.
  replace (2 * S k)%nat with (S (S (2 * k))) by lia.
  replace (2 * k + 2)%nat with (S (S (2 * k))) by lia.
  replace (2 * k + 1)%nat with (S (2 * k)) by lia.
  rewrite !fact_simpl, !mult_INR.
  pose proof (INR_fact_neq_0 (2 * k)) as Hf.
  assert (H1 : INR (S (2 * k)) <> 0) by (apply not_0_INR; lia).
  assert (H2 : INR (S (S (2 * k))) <> 0) by (apply not_0_INR; lia).
  simpl pow. field. repeat split; assumption.
Qed.

(** One step of either series over the common denominator. *)
Lemma series_step (x sn tn dn m d : R) (i j : nat) (s t : R) :
  0 < d -> 0 < dn -> (0 < i)%nat -> (0 < j)%nat ->
  x = m / d -> sn / dn = s -> tn / dn = t ->
  - (tn * (m * m)) / (dn * (d * d * (INR i * INR j)))
  = t * (- (x * x)) / (INR i * INR j)
  /\ (sn * (d * d * (INR i * INR j)) + - (tn * (m * m)))
     / (dn * (d * d * (INR i * INR j)))
     = s + t * (- (x * x)) / (INR i * INR j).
Proof.
  intros Hd Hdn Hi Hj -> <- <-.
  assert (INR i <> 0) by (apply not_0_INR; lia).
  assert (INR j <> 0) by (apply not_0_INR; lia).
  split; field; repeat split; lra.
Qed.

Lemma step_factor_pos (d : Z) (i j : nat) :
  (0 < d)%Z -> (0 < i)%nat -> (0 < j)%nat ->
  (0 < d * d * (Z.of_nat i * Z.of_nat j))%Z.
Proof. intros. apply Z.mul_pos_pos; apply Z.mul_pos_pos; lia. Qed.

Lemma sin_sums_correct (m d : Z) (n : nat) :
  (0 < d)%Z ->
  let p := sin_sums m d n in
  (0 < denom p)%Z
  /\ IZR (sum_num p) / IZR (denom p) = sin_approx (IZR m / IZR d) n
  /\ IZR (term_num p) / IZR (denom p) = sin_term (IZR m / IZR d) n.
Proof.
  intros Hd. induction n as [ | k (Hpos & IHs & IHt) ].
  - cbn. unfold sin_approx, sin_term. cbn.
    assert (IZR d <> 0) by (apply not_0_IZR; lia).
    split; [ exact Hd | split; field; assumption ].
  - cbn [sin_sums]. cbv zeta.
    set (p := sin_sums m d k) in *. cbn [sum_num term_num denom].
    pose proof (step_factor_pos d (2 * k + 2) (2 * k + 3) Hd
                  ltac:(lia) ltac:(lia)) as Hc.
    split; [ now apply Z.mul_pos_pos | ].
    rewrite plus_IZR, opp_IZR, !mult_IZR, <- !INR_IZR_INZ.
    destruct (series_step (IZR m / IZR d) (IZR (sum_num p))
                (IZR (term_num p)) (IZR (denom p)) (IZR m) (IZR d)
                (2 * k + 2) (2 * k + 3) _ _
                (IZR_lt _ _ Hd) (IZR_lt _ _ Hpos) ltac:(lia) ltac:(lia)
                eq_refl IHs IHt) as [Et Es].
    split.
    + unfold sin_approx in *. cbn [sum_f_R0]. rewrite sin_term_S. exact Es.
    + rewrite sin_term_S. exact Et.
Qed.

Lemma cos_sums_correct (m d : Z) (n : nat) :
  (0 < d)%Z ->
  let p := cos_sums m d n in
  (0 < denom p)%Z
  /\ IZR (sum_num p) / IZR (denom p) = cos_approx (IZR m / IZR d) n
  /\ IZR (term_num p) / IZR (denom p) = cos_term (IZR m / IZR d) n.
Proof.
  intros Hd. induction n as [ | k (Hpos & IHs & IHt) ].
  - cbn. unfold cos_approx, cos_term. cbn.
    split; [ lia | split; field ].
  - cbn [cos_sums]. cbv zeta.
    set (p := cos_sums m d k) in *. cbn [sum_num term_num denom].
    pose proof (step_factor_pos d (2 * k + 1) (2 * k + 2) Hd
                  ltac:(lia) ltac:(lia)) as Hc.
    split; [ now apply Z.mul_pos_pos | ].
    rewrite plus_IZR, opp_IZR, !mult_IZR, <- !INR_IZR_INZ.
    destruct (series_step (IZR m / IZR d) (IZR (sum_num p))
                (IZR (term_num p)) (IZR (denom p)) (IZR m) (IZR d)
                (2 * k + 1) (2 * k + 2) _ _
                (IZR_lt _ _ Hd) (IZR_lt _ _ Hpos) ltac:(lia) ltac:(lia)
                eq_refl IHs IHt) as [Et Es].
    split.
    + unfold cos_approx in *. cbn [sum_f_R0]. rewrite cos_term_S. exact Es.
    + rewrite cos_term_S. exact Et.
Qed.

Lemma Q2R_partial_sum_value (p : partial_sum) :
  (0 < denom p)%Z ->
  Q2R (partial_sum_value p) = IZR (sum_num p) / IZR (denom p).
Proof.
  intros Hp. unfold partial_sum_value, Q2R. cbn [Qnum Qden].
  now rewrite Z2Pos.id.
Qed.

Lemma Q2R_sin_sum (a : Q) (n : nat) : Q2R (sin_sum a n) = sin_approx (Q2R a) n.
Proof.
  destruct (sin_sums_correct (Qnum a) (Zpos (Qden a)) n ltac:(lia))
    as (Hp & Hs & _).
  unfold sin_sum. rewrite Q2R_partial_sum_value by exact Hp. exact Hs.
Qed.

Lemma Q2R_cos_sum (a : Q) (n : nat) : Q2R (cos_sum a n) = cos_approx (Q2R a) n.
Proof.
  destruct (cos_sums_correct (Qnum a) (Zpos (Qden a)) n ltac:(lia))
    as (Hp & Hs & _).
  unfold cos_sum. rewrite Q2R_partial_sum_value by exact Hp. exact Hs.
Qed.

(** *** Correct rounding from an enclosure

    The series alternate, so two consecutive partial sums enclose the sine
    (on [0, 4]) and the cosine (on [-2, 2]); when both lie strictly between
    the midpoints around [v], the real value rounds to [v]. *)

Lemma sin_rounds_to (x v : float) (n : nat) :
  (0 <= F2Q x)%Q -> (F2Q x <= 4)%Q ->
  (mid_below v < sin_sum (F2Q x) (2 * n + 1))%Q ->
  (sin_sum (F2Q x) (2 * (n + 1)) < mid_above v)%Q ->
  rounds_to (sin (F2R x)) v.
Proof.
  intros H0 H4 Hlo Hhi.
  apply Qle_Rle in H0, H4. apply Qlt_Rlt in Hlo, Hhi.
  change 0%Q with (inject_Z 0) in H0. change 4%Q with (inject_Z 4) in H4.
  rewrite Q2R_inject_Z in H0, H4.
  destruct (pre_sin_bound (F2R x) n H0 H4) as [Hl Hu].
  rewrite Q2R_sin_sum in Hlo, Hhi.
  unfold rounds_to. fold (F2R x) in Hlo, Hhi. lra.
Qed.

Lemma cos_rounds_to (x v : float) (n : nat) :
  (-2 <= F2Q x)%Q -> (F2Q x <= 2)%Q ->
  (mid_below v < cos_sum (F2Q x) (2 * n + 1))%Q ->
  (cos_sum (F2Q x) (2 * (n + 1)) < mid_above v)%Q ->
  rounds_to (cos (F2R x)) v.
Proof.
  intros H0 H4 Hlo Hhi.
  apply Qle_Rle in H0, H4. apply Qlt_Rlt in Hlo, Hhi.
  change (-2)%Q with (inject_Z (-2)) in H0.
  change 2%Q with (inject_Z 2) in H4.
  rewrite Q2R_inject_Z in H0, H4.
  destruct (pre_cos_bound (F2R x) n H0 H4) as [Hl Hu].
  rewrite Q2R_cos_sum in Hlo, Hhi.
  unfold rounds_to. fold (F2R x) in Hlo, Hhi. lra.
Qed.

(** Comparisons of closed rationals are decided by evaluation. *)
Ltac by_evaluation :=
  match goal with
  | |- Qlt _ _ => vm_compute; reflexivity
  | |- Qle _ _ => vm_compute; discriminate
  end.

(** Every tabulated sine is the binary64 number nearest to the real sine
    of its argument; likewise the cosines. *)
Lemma sin_table_rounded :
  Forall (fun entry => rounds_to (sin (F2R (fst entry))) (snd entry))
         sin_table.
Proof.
  unfold sin_table.
  repeat (apply Forall_cons;
          [ apply (sin_rounds_to _ _ 6); by_evaluation | ]).
  apply Forall_nil.
Qed.

Lemma cos_table_rounded :
  Forall (fun entry => rounds_to (cos (F2R (fst entry))) (snd entry))
         cos_table.
Proof.
  unfold cos_table.
  repeat (apply Forall_cons;
          [ apply (cos_rounds_to _ _ 6); by_evaluation | ]).
  apply Forall_nil.
Qed.

Lemma tabulated_host_agrees : agrees_with_tables tabulated_host.
Proof. split; repeat constructor. Qed.

(** *** The two evaluations *)

Local Open Scope float_scope.

(** The equations a host satisfies when it agrees with the tables. *)
Ltac table_equations H :=
  unfold agrees_with_tables, sin_table, cos_table in H;
  cbn [host_sin host_cos] in H;
  destruct H;
  repeat match goal with
         | F : Forall _ (_ :: _) |- _ => inversion_clear F
         | F : Forall _ nil |- _ => clear F
         end;
  cbn [fst snd] in *.

Ltac evaluate_with_tables :=
  vm_compute;
  repeat match goal with E : _ = _ |- _ => rewrite E; clear E end;
  vm_compute; reflexivity.

(** On every host that returns the tabulated sines and cosines, [a] is
    rounded to 1 + 2^-52 for the two antipodal points, and the distance is
    NaN. *)
Lemma ground_distance_nan (h : Host) :
  agrees_with_tables h ->
  haversine_a (N := Number64 h) south_point north_point
  = 0x1.0000000000001p+0
  /\ is_nan (greatCircleGroundDistance (N := Number64 h)
               south_point north_point None) = true.
Proof.
  destruct h as [hsin hcos hasin hatan2]; intros Hh.
  table_equations Hh.
  split; evaluate_with_tables.
Qed.

(** On every such host, [sinφ2] is rounded to 1 + 2^-52 at the high
    latitude, and the returned latitude is NaN. *)
Lemma destination_nan (h : Host) :
  agrees_with_tables h ->
  destination_sin_phi2 (N := Number64 h)
    high_latitude_point distance_to_pole 0 (Some 1)
  = 0x1.0000000000001p+0
  /\ is_nan (latitude (greatCircleDestination (N := Number64 h)
                         high_latitude_point distance_to_pole 0 (Some 1)))
     = true.
Proof.
  destruct h as [hsin hcos hasin hatan2]; intros Hh.
  table_equations Hh.
  split; evaluate_with_tables.
Qed.

(** C1 as stated fails in binary64.  The coordinates of the two antipodal
    points are finite; on the tabulated host [a] is rounded to 1 + 2^-52,
    [1 - a] is negative, its square root is NaN, and the distance is NaN. *)
Lemma ground_distance_nan_counterexample :
  is_finite (latitude south_point) = true
  /\ is_finite (longitude south_point) = true
  /\ is_finite (latitude north_point) = true
  /\ is_finite (longitude north_point) = true
  /\ haversine_a (N := Number64 tabulated_host) south_point north_point
     = 0x1.0000000000001p+0
  /\ (1 - 0x1.0000000000001p+0 <? 0) = true
  /\ is_nan (sqrt (1 - 0x1.0000000000001p+0)) = true
  /\ is_nan (greatCircleGroundDistance (N := Number64 tabulated_host)
               south_point north_point None) = true.
Proof. vm_compute. repeat split. Qed.

(** C2 as stated fails in binary64.  The point, the distance, the bearing 0
    and the radius 1 are finite; on the tabulated host [sinφ2] is rounded to
    1 + 2^-52, and the returned latitude, its arcsine, is NaN. *)
Lemma destination_nan_counterexample :
  is_finite (latitude high_latitude_point) = true
  /\ is_finite (longitude high_latitude_point) = true
  /\ is_finite distance_to_pole = true
  /\ destination_sin_phi2 (N := Number64 tabulated_host)
       high_latitude_point distance_to_pole 0 (Some 1)
     = 0x1.0000000000001p+0
  /\ (1 <? 0x1.0000000000001p+0) = true
  /\ is_nan (latitude (greatCircleDestination (N := Number64 tabulated_host)
                         high_latitude_point distance_to_pole 0 (Some 1)))
     = true.
Proof. vm_compute. repeat split. Qed.

End Binary64Facts.

(** ** The geometry of the formulas in exact real arithmetic *)

Module ExactGeometry.

Import Exact ExactFacts ExactProperties.
Local Open Scope R_scope.

(** *** [atan2] of a point given by its polar angle *)

Lemma tan_shift_PI (t : R) : cos t <> 0 -> tan (t + PI) = tan t.
Proof.
  intros Hc. unfold tan. rewrite neg_sin, neg_cos. field. exact Hc.
Qed.

Lemma tan_shift_minus_PI (t : R) : cos t <> 0 -> tan (t - PI) = tan t.
Proof.
  intros Hc. unfold tan.
  replace (sin (t - PI)) with (- sin t)
    by (rewrite sin_minus, sin_PI, cos_PI; ring).
  replace (cos (t - PI)) with (- cos t)
    by (rewrite cos_minus, sin_PI, cos_PI; ring).
  field. exact Hc.
Qed.

Lemma scaled_ratio (r s c : R) : 0 < r -> c <> 0 -> r * s / (r * c) = s / c.
Proof. intros Hr Hc. field. split; lra. Qed.

(** The angle of the point [(r cos t, r sin t)] is [t], for [t] in
    (-π, π]. *)
Lemma atan2_polar (r t : R) :
  0 < r -> - PI < t <= PI -> atan2 (r * sin t) (r * cos t) = t.
Proof.
  intros Hr [Hlo Hhi]. pose proof PI_RGT_0 as Hpi.
  unfold atan2.
  destruct (Rlt_dec 0 (r * cos t)) as [Hx | Hx].
  - (* cos t > 0 *)
    assert (Hc : 0 < cos t) by nra.
    assert (Ht : - (PI / 2) < t < PI / 2).
    { split.
      - destruct (Rlt_dec (- (PI / 2)) t) as [ | Hn ]; [ assumption | ].
        exfalso.
        assert (H1 : cos (t + PI) = - cos t) by apply neg_cos.
        pose proof (cos_ge_0 (t + PI) ltac:(lra) ltac:(lra)). lra.
      - destruct (Rlt_dec t (PI / 2)) as [ | Hn ]; [ assumption | ].
        exfalso. pose proof (cos_le_0 t ltac:(lra) ltac:(lra)). lra. }
    rewrite scaled_ratio by lra. fold (tan t). now apply atan_tan.
  - destruct (Rlt_dec (r * cos t) 0) as [Hx' | Hx'].
    + assert (Hc : cos t < 0) by nra.
      destruct (Rle_dec 0 (r * sin t)) as [Hy | Hy].
      * (* second quadrant *)
        assert (Hs : 0 <= sin t) by nra.
        assert (Ht : PI / 2 < t).
        { destruct (Rlt_dec (PI / 2) t) as [ | Hn ]; [ assumption | ].
          exfalso.
          destruct (Rle_dec (- (PI / 2)) t).
          - pose proof (cos_ge_0 t ltac:(lra) ltac:(lra)). lra.
          - pose proof (sin_lt_0_var t ltac:(lra) ltac:(lra)). lra. }
        rewrite scaled_ratio by lra. fold (tan t).
        rewrite <- (tan_shift_minus_PI t) by lra.
        rewrite atan_tan by lra. ring.
      * (* third quadrant *)
        assert (Hs : sin t < 0) by nra.
        assert (Ht : t < - (PI / 2)).
        { destruct (Rlt_dec t (- (PI / 2))) as [ | Hn ]; [ assumption | ].
          exfalso.
          destruct (Rle_dec t (PI / 2)).
          - pose proof (cos_ge_0 t ltac:(lra) ltac:(lra)). lra.
          - pose proof (sin_ge_0 t ltac:(lra) ltac:(lra)). lra. }
        rewrite scaled_ratio by lra. fold (tan t).
        rewrite <- (tan_shift_PI t) by lra.
        rewrite atan_tan by lra. ring.
    + assert (Hc : cos t = 0) by nra.
      pose proof (sin2_cos2 t) as E. unfold Rsqr in E. rewrite Hc in E.
      destruct (Rlt_dec 0 (r * sin t)) as [Hy | Hy].
      * assert (Hs : 0 < sin t) by nra.
        (* t = π/2 *)
        destruct (Rtotal_order t (PI / 2)) as [Hl | [He | Hg]];
          [ exfalso | now symmetry | exfalso ].
        -- destruct (Rle_dec t 0).
           ++ destruct (Req_dec t 0) as [-> | ].
              ** rewrite sin_0 in Hs. lra.
              ** pose proof (sin_lt_0_var t ltac:(lra) ltac:(lra)). lra.
           ++ pose proof (cos_gt_0 t ltac:(lra) ltac:(lra)). lra.
        -- destruct (Req_dec t PI) as [-> | ].
           ++ rewrite sin_PI in Hs. lra.
           ++ pose proof (cos_lt_0 t ltac:(lra) ltac:(lra)). lra.
      * destruct (Rlt_dec (r * sin t) 0) as [Hy' | Hy'].
        -- assert (Hs : sin t < 0) by nra.
           destruct (Rtotal_order t (- (PI / 2))) as [Hl | [He | Hg]];
             [ exfalso | now symmetry | exfalso ].
           ++ assert (H1 : cos (t + PI) = - cos t) by apply neg_cos.
              pose proof (cos_gt_0 (t + PI) ltac:(lra) ltac:(lra)). lra.
           ++ destruct (Rlt_dec t (PI / 2)).
              ** pose proof (cos_gt_0 t ltac:(lra) ltac:(lra)). lra.
              ** pose proof (sin_ge_0 t ltac:(lra) ltac:(lra)). lra.
        -- exfalso. assert (sin t = 0) by nra. nra.
Qed.

(** *** Cosine and sine of [atan2] *)

Lemma sqrt_factor (x z : R) :
  0 <= x -> sqrt (x * x * (1 + z²)) = x * sqrt (1 + z²).
Proof.
  intros Hx. rewrite sqrt_mult_alt by nra.
  now rewrite sqrt_square.
Qed.

Lemma one_plus_sqr_pos (z : R) : 0 < sqrt (1 + z²).
Proof. apply sqrt_lt_R0. pose proof (Rle_0_sqr z). lra. Qed.

Lemma norm_right (x y : R) :
  0 < x -> sqrt (x * x + y * y) = x * sqrt (1 + (y / x)²).
Proof.
  intros Hx. rewrite <- sqrt_factor by lra. f_equal.
  unfold Rsqr. field. lra.
Qed.

Lemma norm_left (x y : R) :
  x < 0 -> sqrt (x * x + y * y) = - x * sqrt (1 + (y / x)²).
Proof.
  intros Hx. rewrite <- sqrt_factor by lra. f_equal.
  unfold Rsqr. field. lra.
Qed.

(** [atan2 y x] is the direction of [(x, y)]: scaled by the norm, its
    cosine and sine give back [x] and [y]. *)
Lemma cos_sin_atan2 (y x : R) :
  sqrt (x * x + y * y) * cos (atan2 y x) = x
  /\ sqrt (x * x + y * y) * sin (atan2 y x) = y.
Proof.
  pose proof (one_plus_sqr_pos (y / x)) as Hn.
  unfold atan2.
  destruct (Rlt_dec 0 x) as [Hx | Hx].
  - rewrite norm_right, cos_atan, sin_atan by exact Hx.
    split; field; lra.
  - destruct (Rlt_dec x 0) as [Hx' | Hx'].
    + rewrite norm_left by exact Hx'.
      destruct (Rle_dec 0 y).
      * rewrite neg_cos, neg_sin, cos_atan, sin_atan. split; field; lra.
      * replace (cos (atan (y / x) - PI)) with (- cos (atan (y / x)))
          by (rewrite cos_minus, sin_PI, cos_PI; ring).
        replace (sin (atan (y / x) - PI)) with (- sin (atan (y / x)))
          by (rewrite sin_minus, sin_PI, cos_PI; ring).
        rewrite cos_atan, sin_atan. split; field; lra.
    + assert (x = 0) by lra. subst x.
      replace (0 * 0 + y * y) with (y * y) by ring.
      destruct (Rlt_dec 0 y) as [Hy | Hy].
      * rewrite cos_PI2, sin_PI2, sqrt_square by lra. split; ring.
      * destruct (Rlt_dec y 0) as [Hy' | Hy'].
        -- rewrite cos_neg, sin_neg, cos_PI2, sin_PI2.
           replace (y * y) with (- y * - y) by ring.
           rewrite sqrt_square by lra. split; ring.
        -- assert (y = 0) by lra. subst y.
           rewrite Rmult_0_l, sqrt_0. split; ring.
Qed.

(** *** The haversine formula and the spherical law of cosines *)

Lemma sin_half_sqr (x : R) : sin (x / 2) * sin (x / 2) = (1 - cos x) / 2.
Proof.
  replace x with (2 * (x / 2)) at 3 by field.
  rewrite cos_2a_sin. field.
Qed.

Lemma haversine_a_dot (p q : Cartographic R) :
  haversine_a p q = (1 - dot p q) / 2.
Proof.
  unfold haversine_a, dot; simpl.
  replace (cos (latitude p) * cos (latitude q)
           * sin ((longitude q - longitude p) / 2)
           * sin ((longitude q - longitude p) / 2))
    with (cos (latitude p) * cos (latitude q)
          * (sin ((longitude q - longitude p) / 2)
             * sin ((longitude q - longitude p) / 2))) by ring.
  rewrite !sin_half_sqr, cos_minus. field.
Qed.

(** The angle [2 · atan2 (√a) (√(1 − a))] is [2 · asin (√a)]. *)
Lemma atan2_sqrt (a : R) :
  0 <= a <= 1 -> atan2 (sqrt a) (sqrt (1 - a)) = asin (sqrt a).
Proof.
  intros Ha.
  assert (Hs : 0 <= sqrt a <= 1).
  { split; [ apply sqrt_pos | ]. rewrite <- sqrt_1. apply sqrt_le_1_alt. lra. }
  pose proof (asin_bound (sqrt a)) as Hb. pose proof PI_RGT_0 as Hpi.
  replace (atan2 (sqrt a) (sqrt (1 - a)))
    with (atan2 (1 * sin (asin (sqrt a))) (1 * cos (asin (sqrt a)))).
  - apply atan2_polar; lra.
  - rewrite !Rmult_1_l, sin_asin, cos_asin by lra.
    now rewrite Rsqr_sqrt by lra.
Qed.

Lemma cos_central_angle (p q : Cartographic R) :
  cos (central_angle p q) = dot p q.
Proof.
  pose proof (haversine_a_range p q) as Ha.
  pose proof (haversine_a_dot p q) as Ed.
  unfold central_angle. revert Ha Ed.
  generalize (haversine_a p q); intros a Ha Ed; simpl.
  rewrite atan2_sqrt by exact Ha.
  rewrite cos_2a_sin, Rmult_assoc, sin_asin.
  - rewrite sqrt_sqrt by lra. lra.
  - split.
    + pose proof (sqrt_pos a). lra.
    + rewrite <- sqrt_1. apply sqrt_le_1_alt. lra.
Qed.

Lemma central_angle_acos (p q : Cartographic R) :
  central_angle p q = acos (dot p q).
Proof.
  rewrite <- cos_central_angle. symmetry. apply acos_cos.
  apply central_angle_range.
Qed.

Lemma ground_distance_acos (p q : Cartographic R) (radius : option R) :
  greatCircleGroundDistance p q radius
  = default_to MEAN_EARTH_RADIUS radius * acos (dot p q).
Proof. rewrite ground_distance_unfold, central_angle_acos. reflexivity. Qed.

(** X1: the central angle of the haversine formula is the angle of [0, π]
    that the spherical law of cosines gives, and the distance is the radius
    times that angle. *)
Theorem central_angle_law_of_cosines (p q : Cartographic R) (radius : option R) :
  central_angle p q = acos (dot p q)
  /\ greatCircleGroundDistance p q radius
     = default_to MEAN_EARTH_RADIUS radius * acos (dot p q).
Proof.
  split; [ apply central_angle_acos | apply ground_distance_acos ].
Qed.

(** *** The destination seen from the starting point *)

Section Destination.

Variables (p : Cartographic R) (d θ : R) (radius : option R).

Let δ := angular_distance d radius.
Let S := destination_sin_phi2 p d θ radius.
Let x := destination_x p d θ radius.
Let y := destination_y p d θ radius.
Let q := greatCircleDestination p d θ radius.

Lemma destination_latitude_sin_cos :
  sin (latitude q) = S /\ cos (latitude q) = sqrt (1 - S * S).
Proof.
  pose proof (sin_phi2_range p d θ radius) as HS. fold S in HS.
  unfold q. rewrite destination_unfold. cbn [latitude]. fold S. simpl.
  split; [ now apply sin_asin | ].
  rewrite cos_asin by exact HS. reflexivity.
Qed.

Lemma destination_longitude_offset :
  longitude q - longitude p = atan2 y x.
Proof.
  unfold q. rewrite destination_unfold. cbn [longitude]. fold x y. simpl.
  ring.
Qed.

(** The norm of [(x, y)] is [cos φ1 · cos φ2]. *)
Lemma destination_xy_norm :
  0 <= cos (latitude p) ->
  sqrt (x * x + y * y) = cos (latitude p) * sqrt (1 - S * S).
Proof.
  intros Hc.
  pose proof (sin_phi2_range p d θ radius) as HS. fold S in HS.
  assert (H1 : 0 <= 1 - S * S) by nra.
  rewrite <- (sqrt_square (cos (latitude p))) at 1 by exact Hc.
  rewrite <- sqrt_mult_alt by nra. f_equal.
  unfold x, y, destination_x, destination_y. fold S.
  unfold S, destination_sin_phi2. fold δ. simpl.
  pose proof (sin2_cos2 (latitude p)) as E1.
  pose proof (sin2_cos2 δ) as E2.
  pose proof (sin2_cos2 θ) as E3.
  unfold Rsqr in E1, E2, E3. revert E1 E2 E3.
  generalize (sin (latitude p)) (cos (latitude p)) (sin δ) (cos δ)
             (sin θ) (cos θ).
  intros A B D C st ct E1 E2 E3. nsatz.
Qed.

Lemma destination_xy :
  0 <= cos (latitude p) ->
  cos (latitude p) * cos (latitude q) * cos (longitude q - longitude p) = x
  /\ cos (latitude p) * cos (latitude q) * sin (longitude q - longitude p)
     = y.
Proof.
  intros Hc.
  rewrite destination_longitude_offset.
  rewrite (proj2 destination_latitude_sin_cos).
  rewrite <- destination_xy_norm by exact Hc.
  apply cos_sin_atan2.
Qed.

(** The angle between the start and the destination has the cosine of the
    angular distance travelled. *)
Lemma dot_destination :
  0 <= cos (latitude p) -> dot p q = cos δ.
Proof.
  intros Hc. unfold dot.
  rewrite (proj1 (destination_xy Hc)).
  rewrite (proj1 destination_latitude_sin_cos).
  unfold x, destination_x. fold S δ. simpl. ring.
Qed.

End Destination.

(** X2: round trip: the ground distance from a point to the destination reached
    by travelling [d] along any bearing is [d], when the start has a
    latitude of [-π/2, π/2] and [d] is at most half the circumference. *)
Theorem distance_to_destination
    (p : Cartographic R) (d θ r : R)
    (Hlat : - (PI / 2) <= latitude p <= PI / 2)
    (Hr : 0 < r) (Hd : 0 <= d <= PI * r) :
  greatCircleGroundDistance p (greatCircleDestination p d θ (Some r)) (Some r)
  = d.
Proof.
  rewrite ground_distance_acos, dot_destination by (apply cos_ge_0; lra).
  unfold angular_distance; simpl.
  rewrite acos_cos.
  - field. lra.
  - split.
    + apply Rmult_le_pos; [ lra | left; now apply Rinv_0_lt_compat ].
    + apply Rmult_le_reg_r with r; [ exact Hr | ].
      unfold Rdiv. rewrite Rmult_assoc, Rinv_l by lra. lra.
Qed.

(** X3: round trip: the initial bearing from a point to the destination reached
    along the bearing [θ] is the normalization of [θ], whatever the
    normalization is, when the start is not a pole, [θ] is in (-π, π] and
    the distance is positive and less than half the circumference. *)
Theorem bearing_to_destination
    (C : CesiumMath R) (p : Cartographic R) (d θ r : R)
    (Hlat : - (PI / 2) < latitude p < PI / 2)
    (Hθ : - PI < θ <= PI)
    (Hr : 0 < r) (Hd : 0 < d < PI * r) :
  greatCircleInitialBearing p (greatCircleDestination p d θ (Some r))
  = zeroToTwoPi θ.
Proof.
  pose proof (cos_gt_0 (latitude p) ltac:(lra) ltac:(lra)) as Hc.
  destruct (destination_xy p d θ (Some r) ltac:(lra)) as [Ex Ey].
  destruct (destination_latitude_sin_cos p d θ (Some r)) as [Es _].
  assert (Hδ : 0 < sin (angular_distance d (Some r))).
  { unfold angular_distance; simpl. apply sin_gt_0.
    - apply Rmult_lt_0_compat; [ lra | now apply Rinv_0_lt_compat ].
    - apply Rmult_lt_reg_r with r; [ exact Hr | ].
      unfold Rdiv. rewrite Rmult_assoc, Rinv_l by lra. lra. }
  unfold greatCircleInitialBearing. cbv zeta. f_equal.
  unfold destination_x, destination_y, destination_sin_phi2 in Ex, Ey, Es.
  revert Ex Ey Es.
  generalize (greatCircleDestination p d θ (Some r)); intros q Ex Ey Es.
  rewrite <- (atan2_polar (sin (angular_distance d (Some r))) θ Hδ Hθ).
  revert Ex Ey Es Hδ.
  generalize (angular_distance d (Some r)); intros δ.
  cbn [Math_sin Math_cos Math_atan2 add sub mul RealNumber].
  pose proof (sin2_cos2 (latitude p)) as E1. unfold Rsqr in E1.
  revert E1 Hc.
  generalize (cos (longitude q - longitude p))
             (sin (longitude q - longitude p))
             (sin (latitude q)) (cos (latitude q))
             (sin (latitude p)) (cos (latitude p))
             (sin δ) (cos δ) (sin θ) (cos θ).
  intros cl sl S2 C2 A B D Cd st ct E1 Hc Ex Ey Es Hδ.
  f_equal.
  - apply Rmult_eq_reg_l with B; [ | lra ].
    replace (B * (sl * C2)) with (B * C2 * sl) by ring. rewrite Ey. ring.
  - apply Rmult_eq_reg_l with B; [ | lra ].
    replace (B * (B * S2 - A * C2 * cl))
      with (B * B * S2 - A * (B * C2 * cl)) by ring.
    rewrite Ex, Es.
    replace (B * B) with (1 - A * A) by lra. ring.
Qed.

(** *** Rotations about the polar axis *)

(** X6: rotating both points by the same angle changes neither the distance
    nor the bearing, and the destination rotates with its starting point. *)
Theorem rotation_invariance
    (C : CesiumMath R) (t : R) (p q : Cartographic R) (d θ : R)
    (radius : option R) :
  greatCircleGroundDistance (rotate t p) (rotate t q) radius
  = greatCircleGroundDistance p q radius
  /\ greatCircleInitialBearing (rotate t p) (rotate t q)
     = greatCircleInitialBearing p q
  /\ greatCircleDestination (rotate t p) d θ radius
     = rotate t (greatCircleDestination p d θ radius).
Proof.
  unfold greatCircleGroundDistance, greatCircleInitialBearing,
    greatCircleDestination, rotate.
  cbn [longitude latitude height]. cbv zeta.
  cbn [Math_sin Math_cos Math_atan2 Math_sqrt Math_asin add sub mul div lit
       RealNumber].
  replace (longitude q + t - (longitude p + t))
    with (longitude q - longitude p) by ring.
  repeat split. f_equal. ring.
Qed.

(** *** Whole turns *)

Lemma sin_turn (x : R) : sin (x + 2 * PI) = sin x.
Proof. rewrite sin_plus, sin_2PI, cos_2PI. ring. Qed.

Lemma cos_turn (x : R) : cos (x + 2 * PI) = cos x.
Proof. rewrite cos_plus, sin_2PI, cos_2PI. ring. Qed.

(** X7: travelling one more circumference, or along a bearing one turn
    larger, ends at the same point; a second point one turn further east is
    at the same distance. *)
Theorem whole_turns
    (p q : Cartographic R) (d θ r : R) (Hr : 0 < r) :
  greatCircleDestination p (d + 2 * PI * r) θ (Some r)
  = greatCircleDestination p d θ (Some r)
  /\ greatCircleDestination p d (θ + 2 * PI) (Some r)
     = greatCircleDestination p d θ (Some r)
  /\ greatCircleGroundDistance p (rotate (2 * PI) q) (Some r)
     = greatCircleGroundDistance p q (Some r).
Proof.
  split; [ | split ].
  - unfold greatCircleDestination; simpl.
    replace ((d + 2 * PI * r) / r) with (d / r + 2 * PI) by (field; lra).
    now rewrite sin_turn, cos_turn.
  - unfold greatCircleDestination; simpl.
    now rewrite sin_turn, cos_turn.
  - rewrite !ground_distance_unfold. f_equal.
    rewrite !central_angle_acos.
    f_equal. unfold dot, rotate. cbn [longitude latitude].
    replace (longitude q + 2 * PI - longitude p)
      with (longitude q - longitude p + 2 * PI) by ring.
    now rewrite cos_turn.
Qed.

Lemma whole_turns_witness :
  0 < 1
  /\ greatCircleDestination (mkCartographic 0 1 0) (2 + 2 * PI * 1) 3 (Some 1)
     = greatCircleDestination (mkCartographic 0 1 0) 2 3 (Some 1).
Proof.
  split; [ lra | ].
  apply (whole_turns (mkCartographic 0 1 0) (mkCartographic 0 0 0) 2 3 1).
  lra.
Defined.

(** *** Travelling along a meridian, along the equator, and half way round *)

(** X8: due north: the latitude grows by the angular distance and the longitude
    stays, as long as the pole is not passed. *)
Theorem destination_due_north
    (p : Cartographic R) (d r : R)
    (Hr : 0 < r)
    (Hlat : - (PI / 2) <= latitude p <= PI / 2)
    (Hend : - (PI / 2) <= latitude p + d / r <= PI / 2) :
  greatCircleDestination p d 0 (Some r)
  = mkCartographic (longitude p) (latitude p + d / r) 0.
Proof.
  unfold greatCircleDestination; simpl.
  rewrite sin_0, cos_0.
  replace (sin (latitude p) * cos (d / r) + cos (latitude p) * sin (d / r) * 1)
    with (sin (latitude p + d / r)) by (rewrite sin_plus; ring).
  rewrite asin_sin by exact Hend.
  replace (0 * sin (d / r) * cos (latitude p)) with 0 by ring.
  rewrite atan2_0_nonneg.
  - f_equal. ring.
  - replace (cos (d / r) - sin (latitude p) * sin (latitude p + d / r))
      with (cos (latitude p) * cos (latitude p + d / r)).
    + apply Rmult_le_pos; apply cos_ge_0; lra.
    + rewrite sin_plus, cos_plus.
      pose proof (sin2_cos2 (latitude p)) as E. unfold Rsqr in E.
      revert E.
      generalize (sin (latitude p)) (cos (latitude p))
                 (sin (d / r)) (cos (d / r)).
      intros A B D C E. nsatz.
Qed.

Lemma destination_due_north_witness :
  0 < 2
  /\ - (PI / 2) <= latitude (mkCartographic 5 0 9) <= PI / 2
  /\ - (PI / 2) <= latitude (mkCartographic 5 0 9) + 1 / 2 <= PI / 2
  /\ greatCircleDestination (mkCartographic 5 0 9) 1 0 (Some 2)
     = mkCartographic 5 (0 + 1 / 2) 0.
Proof.
  pose proof PI2_1 as Hpi.
  assert (H1 : - (PI / 2) <= latitude (mkCartographic 5 0 9) <= PI / 2)
    by (simpl; lra).
  assert (H2 : - (PI / 2) <= latitude (mkCartographic 5 0 9) + 1 / 2
               <= PI / 2) by (simpl; lra).
  split; [ lra | split; [ exact H1 | split; [ exact H2 | ] ] ].
  exact (destination_due_north (mkCartographic 5 0 9) 1 2 ltac:(lra) H1 H2).
Defined.

(** X9: due east from the equator: the latitude stays 0 and the longitude grows
    by the angular distance, without wrapping, while that distance is in
    (-π, π]. *)
Theorem destination_along_equator
    (lon h d r : R) (Hr : 0 < r) (Hd : - PI < d / r <= PI) :
  greatCircleDestination (mkCartographic lon 0 h) d (PI / 2) (Some r)
  = mkCartographic (lon + d / r) 0 0.
Proof.
  unfold greatCircleDestination; simpl.
  rewrite sin_0, cos_0, sin_PI2, cos_PI2.
  replace (0 * cos (d / r) + 1 * sin (d / r) * 0) with 0 by ring.
  rewrite asin_0.
  replace (1 * sin (d / r) * 1) with (1 * sin (d / r)) by ring.
  replace (cos (d / r) - 0 * 0) with (1 * cos (d / r)) by ring.
  rewrite atan2_polar by lra. reflexivity.
Qed.

Lemma destination_along_equator_witness :
  0 < 2 /\ - PI < 1 / 2 <= PI
  /\ greatCircleDestination (mkCartographic 3 0 7) 1 (PI / 2) (Some 2)
     = mkCartographic (3 + 1 / 2) 0 0.
Proof.
  pose proof PI2_1 as Hpi.
  assert (H : - PI < 1 / 2 <= PI) by lra.
  split; [ lra | split; [ exact H | ] ].
  exact (destination_along_equator 3 7 1 2 ltac:(lra) H).
Defined.



(** *** When the distance is zero *)

Lemma sin_half_zero (x : R) :
  - PI <= x <= PI -> sin (x / 2) = 0 -> x = 0.
Proof.
  intros Hx Hs. pose proof PI_RGT_0 as Hpi.
  destruct (Rtotal_order x 0) as [Hl | [He | Hg]]; [ exfalso | exact He | exfalso ].
  - pose proof (sin_lt_0_var (x / 2) ltac:(lra) ltac:(lra)). lra.
  - pose proof (sin_gt_0 (x / 2) ltac:(lra) ltac:(lra)). lra.
Qed.

(** X5: for two points with latitudes of [-π/2, π/2] and a positive
    radius, the distance is 0 exactly when the latitudes are equal and
    either the points are at a pole or their longitudes differ by whole
    turns. *)
Theorem distance_zero_iff
    (p q : Cartographic R) (r : R)
    (Hr : 0 < r)
    (Hp : - (PI / 2) <= latitude p <= PI / 2)
    (Hq : - (PI / 2) <= latitude q <= PI / 2) :
  greatCircleGroundDistance p q (Some r) = 0
  <-> latitude p = latitude q
      /\ (cos (latitude p) = 0 \/ cos (longitude q - longitude p) = 1).
Proof.
  pose proof (cos_ge_0 (latitude p) ltac:(lra) ltac:(lra)) as Hcp.
  pose proof (cos_ge_0 (latitude q) ltac:(lra) ltac:(lra)) as Hcq.
  assert (Ea : haversine_a p q
               = sin ((latitude q - latitude p) / 2)
                 * sin ((latitude q - latitude p) / 2)
                 + cos (latitude p) * cos (latitude q)
                   * ((1 - cos (longitude q - longitude p)) / 2)).
  { unfold haversine_a; simpl. rewrite <- sin_half_sqr. ring. }
  pose proof (COS_bound (longitude q - longitude p)) as [_ Hcl].
  split.
  - intros Hd.
    rewrite ground_distance_unfold in Hd.
    cbn [default_to mul RealNumber] in Hd.
    apply Rmult_integral in Hd. destruct Hd as [Hd | Hc]; [ lra | ].
    assert (Ha : haversine_a p q = 0).
    { pose proof (cos_central_angle p q) as E.
      rewrite Hc, cos_0 in E.
      pose proof (haversine_a_dot p q). lra. }
    rewrite Ea in Ha.
    pose proof (Rle_0_sqr (sin ((latitude q - latitude p) / 2))) as H1.
    unfold Rsqr in H1.
    assert (H2 : 0 <= cos (latitude p) * cos (latitude q)
                      * ((1 - cos (longitude q - longitude p)) / 2)).
    { apply Rmult_le_pos; [ now apply Rmult_le_pos | lra ]. }
    assert (Hs : sin ((latitude q - latitude p) / 2) = 0).
    { apply Rsqr_0_uniq. unfold Rsqr. lra. }
    assert (El : latitude p = latitude q).
    { pose proof (sin_half_zero (latitude q - latitude p) ltac:(lra) Hs).
      lra. }
    split; [ exact El | ].
    assert (H3 : cos (latitude p) * cos (latitude q)
                 * ((1 - cos (longitude q - longitude p)) / 2) = 0) by lra.
    rewrite <- El in H3.
    apply Rmult_integral in H3. destruct H3 as [H3 | H3].
    + left. apply Rmult_integral in H3. tauto.
    + right. lra.
  - intros [El Hcase].
    assert (Ha : haversine_a p q = 0).
    { rewrite Ea, <- El.
      replace ((latitude p - latitude p) / 2) with 0 by lra.
      rewrite sin_0. destruct Hcase as [-> | ->]; field. }
    rewrite ground_distance_unfold. unfold central_angle. rewrite Ha. simpl.
    rewrite Rminus_0_r, sqrt_0, sqrt_1, atan2_0_nonneg by lra. ring.
Qed.

Lemma distance_zero_iff_witness :
  0 < 2
  /\ - (PI / 2) <= latitude (mkCartographic 3 1 7) <= PI / 2
  /\ (greatCircleGroundDistance
        (mkCartographic 3 1 7) (mkCartographic 3 1 7) (Some 2) = 0
      <-> latitude (mkCartographic 3 1 7) = latitude (mkCartographic 3 1 7)
          /\ (cos (latitude (mkCartographic 3 1 7)) = 0
              \/ cos (longitude (mkCartographic 3 1 7)
                      - longitude (mkCartographic 3 1 7)) = 1)).
Proof.
  pose proof PI2_1 as Hpi.
  assert (H : - (PI / 2) <= latitude (mkCartographic 3 1 7) <= PI / 2)
    by (simpl; lra).
  split; [ lra | split; [ exact H | ] ].
  exact (distance_zero_iff (mkCartographic 3 1 7) (mkCartographic 3 1 7) 2
           ltac:(lra) H H).
Defined.

(** *** Bearings along a meridian *)

(** X11: toward a point on the same meridian the bearing is the normalization
    of 0 when that point is further north, of π when it is further south,
    and of 0 for the point itself, whatever the normalization is. *)
Theorem bearing_along_meridian
    (C : CesiumMath R) (lon lat1 lat2 h1 h2 : R)
    (Hdiff : - PI < lat2 - lat1 < PI) :
  greatCircleInitialBearing
    (mkCartographic lon lat1 h1) (mkCartographic lon lat2 h2)
  = if Rle_dec lat1 lat2 then zeroToTwoPi 0 else zeroToTwoPi PI.
Proof.
  unfold greatCircleInitialBearing; cbv zeta.
  cbn [longitude latitude Math_sin Math_cos Math_atan2 add sub mul
       RealNumber].
  replace (lon - lon) with 0 by ring. rewrite sin_0, cos_0.
  replace (0 * cos lat2) with 0 by ring.
  replace (cos lat1 * sin lat2 - sin lat1 * cos lat2 * 1)
    with (sin (lat2 - lat1)) by (rewrite sin_minus; ring).
  pose proof PI_RGT_0 as Hpi.
  destruct (Rle_dec lat1 lat2) as [Hle | Hgt]; f_equal.
  - apply atan2_0_nonneg. apply sin_ge_0; lra.
  - pose proof (sin_lt_0_var (lat2 - lat1) ltac:(lra) ltac:(lra)) as Hs.
    unfold atan2.
    destruct (Rlt_dec 0 (sin (lat2 - lat1))); [ lra | ].
    destruct (Rlt_dec (sin (lat2 - lat1)) 0); [ | lra ].
    destruct (Rle_dec 0 0); [ | lra ].
    unfold Rdiv. rewrite Rmult_0_l, atan_0. ring.
Qed.

Lemma bearing_along_meridian_witness :
  - PI < 1 - 0 < PI
  /\ greatCircleInitialBearing
       (mkCartographic 2 0 5) (mkCartographic 2 1 6)
     = if Rle_dec 0 1 then zeroToTwoPi 0 else zeroToTwoPi PI.
Proof.
  pose proof PI2_1 as Hpi.
  assert (H : - PI < 1 - 0 < PI) by lra.
  split; [ exact H | ].
  exact (bearing_along_meridian RealCesiumMath 2 0 1 5 6 H).
Defined.

Lemma distance_to_destination_witness :
  - (PI / 2) <= latitude (mkCartographic 3 1 7) <= PI / 2
  /\ 0 < 2 /\ 0 <= 1 <= PI * 2
  /\ greatCircleGroundDistance
       (mkCartographic 3 1 7)
       (greatCircleDestination (mkCartographic 3 1 7) 1 5 (Some 2)) (Some 2)
     = 1.
Proof.
  pose proof PI2_1 as Hpi.
  assert (H : - (PI / 2) <= latitude (mkCartographic 3 1 7) <= PI / 2)
    by (simpl; lra).
  assert (Hd : 0 <= 1 <= PI * 2) by lra.
  split; [ exact H | split; [ lra | split; [ exact Hd | ] ] ].
  exact (distance_to_destination (mkCartographic 3 1 7) 1 5 2
           H ltac:(lra) Hd).
Defined.

Lemma bearing_to_destination_witness :
  - (PI / 2) < latitude (mkCartographic 3 1 7) < PI / 2
  /\ - PI < 1 <= PI /\ 0 < 2 /\ 0 < 1 < PI * 2
  /\ greatCircleInitialBearing
       (mkCartographic 3 1 7)
       (greatCircleDestination (mkCartographic 3 1 7) 1 1 (Some 2))
     = zeroToTwoPi 1.
Proof.
  pose proof PI2_1 as Hpi.
  assert (H : - (PI / 2) < latitude (mkCartographic 3 1 7) < PI / 2)
    by (simpl; lra).
  assert (Hb : - PI < 1 <= PI) by lra.
  assert (Hd : 0 < 1 < PI * 2) by lra.
  split; [ exact H | split; [ exact Hb | split; [ lra | split; [ exact Hd | ] ] ] ].
  exact (bearing_to_destination RealCesiumMath (mkCartographic 3 1 7) 1 1 2
           H Hb ltac:(lra) Hd).
Defined.

(** *** The triangle inequality *)

(** The Gram determinant of three unit vectors is a square. *)
Lemma gram_unit (a1 a2 a3 b1 b2 b3 c1 c2 c3 : R) :
  a1 * a1 + a2 * a2 + a3 * a3 = 1 ->
  b1 * b1 + b2 * b2 + b3 * b3 = 1 ->
  c1 * c1 + c2 * c2 + c3 * c3 = 1 ->
  let x := a1 * b1 + a2 * b2 + a3 * b3 in
  let y := b1 * c1 + b2 * c2 + b3 * c3 in
  let z := a1 * c1 + a2 * c2 + a3 * c3 in
  let t := a1 * (b2 * c3 - b3 * c2) + a2 * (b3 * c1 - b1 * c3)
           + a3 * (b1 * c2 - b2 * c1) in
  (1 - x * x) * (1 - y * y) - (z - x * y) * (z - x * y) = t * t.
Proof. intros Ha Hb Hc x y z t. unfold x, y, z, t. nsatz. Qed.

Lemma dot_range (p q : Cartographic R) : -1 <= dot p q <= 1.
Proof.
  pose proof (haversine_a_range p q). pose proof (haversine_a_dot p q). lra.
Qed.

(** Cauchy-Schwarz off the middle point: the cosine between the outer
    points is at least the cosine of the sum of the two angles. *)
Lemma dot_triangle (p q s : Cartographic R) :
  cos (acos (dot p q) + acos (dot q s)) <= dot p s.
Proof.
  pose proof (dot_range p q) as Hx. pose proof (dot_range q s) as Hy.
  rewrite cos_plus, !cos_acos, !sin_acos by assumption.
  assert (G : 0 <= (1 - dot p q * dot p q) * (1 - dot q s * dot q s)
                   - (dot p s - dot p q * dot q s)
                     * (dot p s - dot p q * dot q s)).
  { unfold dot. rewrite !cos_minus.
    pose proof (sin2_cos2 (latitude p)) as E1.
    pose proof (sin2_cos2 (longitude p)) as E2.
    pose proof (sin2_cos2 (latitude q)) as E3.
    pose proof (sin2_cos2 (longitude q)) as E4.
    pose proof (sin2_cos2 (latitude s)) as E5.
    pose proof (sin2_cos2 (longitude s)) as E6.
    unfold Rsqr in *. revert E1 E2 E3 E4 E5 E6.
    generalize (sin (latitude p)) (cos (latitude p))
               (sin (longitude p)) (cos (longitude p))
               (sin (latitude q)) (cos (latitude q))
               (sin (longitude q)) (cos (longitude q))
               (sin (latitude s)) (cos (latitude s))
               (sin (longitude s)) (cos (longitude s)).
    intros sa ca sl cl sb cb sm cm sc cc sn cn E1 E2 E3 E4 E5 E6.
    pose proof (gram_unit (ca * cl) (ca * sl) sa (cb * cm) (cb * sm) sb
                  (cc * cn) (cc * sn) sc
                  ltac:(nsatz) ltac:(nsatz) ltac:(nsatz)) as Hg.
    cbv zeta in Hg.
    match type of Hg with _ = ?t * ?t => pose proof (Rle_0_sqr t) as Ht end.
    unfold Rsqr in Ht. rewrite <- Hg in Ht.
    match goal with |- 0 <= ?e =>
      match type of Ht with 0 <= ?e' => replace e with e' by ring end end.
    exact Ht. }
  revert Hx Hy G. generalize (dot p q) (dot q s) (dot p s). intros x y z Hx Hy G.
  unfold Rsqr.
  assert (Hx2 : 0 <= 1 - x * x) by nra.
  assert (Hy2 : 0 <= 1 - y * y) by nra.
  rewrite <- sqrt_mult_alt by exact Hx2.
  set (w := sqrt ((1 - x * x) * (1 - y * y))).
  assert (Hw : 0 <= w) by apply sqrt_pos.
  assert (Ew : w * w = (1 - x * x) * (1 - y * y)).
  { apply sqrt_sqrt. now apply Rmult_le_pos. }
  nra.
Qed.

(** X4: triangle inequality: with a positive radius, the distance between two
    points is at most the sum of their distances through a third. *)
Theorem ground_distance_triangle
    (p q s : Cartographic R) (r : R) (Hr : 0 < r) :
  greatCircleGroundDistance p s (Some r)
  <= greatCircleGroundDistance p q (Some r)
     + greatCircleGroundDistance q s (Some r).
Proof.
  rewrite !ground_distance_acos.
  cbn [default_to]. rewrite <- Rmult_plus_distr_l.
  apply Rmult_le_compat_l; [ lra | ].
  pose proof (acos_bound (dot p q)) as Ha.
  pose proof (acos_bound (dot q s)) as Hb.
  pose proof (acos_bound (dot p s)) as Hc.
  destruct (Rle_dec (acos (dot p q) + acos (dot q s)) PI) as [Hle | Hgt];
    [ | lra ].
  apply cos_decr_0; try lra.
  rewrite cos_acos by apply dot_range.
  apply dot_triangle.
Qed.

Lemma ground_distance_triangle_witness :
  0 < 2
  /\ greatCircleGroundDistance
       (mkCartographic 0 0 0) (mkCartographic 2 1 0) (Some 2)
     <= greatCircleGroundDistance
          (mkCartographic 0 0 0) (mkCartographic 1 1 0) (Some 2)
        + greatCircleGroundDistance
            (mkCartographic 1 1 0) (mkCartographic 2 1 0) (Some 2).
Proof.
  split; [ lra | ].
  apply (ground_distance_triangle
           (mkCartographic 0 0 0) (mkCartographic 1 1 0)
           (mkCartographic 2 1 0) 2).
  lra.
Defined.

(** *** The mirror image in the equatorial plane *)

(** X12: from the mirror image of a point, along the mirrored bearing [π - θ],
    the destination is the mirror image of the destination. *)
Theorem destination_mirror
    (p : Cartographic R) (d θ : R) (radius : option R) :
  greatCircleDestination (mirror p) d (PI - θ) radius
  = mirror (greatCircleDestination p d θ radius).
Proof.
  unfold greatCircleDestination, mirror. cbv zeta.
  cbn [longitude latitude height].
  cbn [Math_sin Math_cos Math_atan2 Math_asin add sub mul lit RealNumber].
  generalize (div d (default_to MEAN_EARTH_RADIUS radius)); intros δ.
  rewrite sin_neg, cos_neg, sin_PI_x.
  replace (cos (PI - θ)) with (- cos θ)
    by (rewrite cos_minus, sin_PI, cos_PI; ring).
  replace (- sin (latitude p) * cos δ + cos (latitude p) * sin δ * - cos θ)
    with (- (sin (latitude p) * cos δ + cos (latitude p) * sin δ * cos θ))
    by ring.
  rewrite asin_opp.
  replace (cos δ - - sin (latitude p)
                   * - (sin (latitude p) * cos δ
                        + cos (latitude p) * sin δ * cos θ))
    with (cos δ - sin (latitude p)
                  * (sin (latitude p) * cos δ
                     + cos (latitude p) * sin δ * cos θ)) by ring.
  reflexivity.
Qed.

End ExactGeometry.

(** ** Arguments that are not finite numbers, in binary64 *)

(** Reads the arithmetic of a goal in the instance at hand. *)
Ltac unfold_number_operations :=
  cbv [lit add sub mul div Math_sin Math_cos Math_sqrt Math_asin Math_atan2
       MEAN_EARTH_RADIUS default_to].

Module Binary64Edge.

Import Stdlib.Floats.Floats.
Import Binary64.
Local Open Scope float_scope.

(** *** NaN, the infinities and the arithmetic operations *)

Lemma SFeqb_refl_not_nan (f : spec_float) :
  f <> S754_nan -> SFeqb f f = true.
Proof.
  destruct f as [ s | s | | s m e ]; intros Hf; try congruence.
  - reflexivity.
  - destruct s; reflexivity.
  - unfold SFeqb, SFcompare.
    destruct s; rewrite Z.compare_refl; fold (Pos.compare m m);
      rewrite Pos.compare_refl; reflexivity.
Qed.

Lemma is_nan_spec (x : float) : is_nan x = true <-> Prim2SF x = S754_nan.
Proof.
  unfold is_nan. rewrite eqb_spec. split.
  - intros H. destruct (Prim2SF x) eqn:E; try reflexivity;
      rewrite SFeqb_refl_not_nan in H by discriminate; discriminate.
  - intros ->. reflexivity.
Qed.

Lemma non_finite_spec (x : float) : non_finite x = SFnon_finite (Prim2SF x).
Proof.
  unfold non_finite, is_infinity, is_nan.
  rewrite !eqb_spec, abs_spec.
  change (Prim2SF infinity) with (S754_infinity false).
  destruct (Prim2SF x) as [ s | s | | s m e ] eqn:E; try reflexivity.
  - destruct s; reflexivity.
  - rewrite SFeqb_refl_not_nan by discriminate. reflexivity.
Qed.

Lemma is_finite_false (x : float) : is_finite x = false <-> non_finite x = true.
Proof. unfold is_finite, non_finite. apply negb_false_iff. Qed.

Lemma nan_non_finite (x : float) : is_nan x = true -> non_finite x = true.
Proof. unfold non_finite. now intros ->. Qed.

Lemma add_nan (x y : float) :
  is_nan x = true \/ is_nan y = true -> is_nan (x + y) = true.
Proof.
  rewrite !is_nan_spec, add_spec. unfold SF64add, SFadd.
  intros [-> | ->]; [ reflexivity | now destruct (Prim2SF x) ].
Qed.

Lemma mul_nan (x y : float) :
  is_nan x = true \/ is_nan y = true -> is_nan (x * y) = true.
Proof.
  rewrite !is_nan_spec, mul_spec. unfold SF64mul, SFmul.
  intros [-> | ->]; [ reflexivity | now destruct (Prim2SF x) ].
Qed.

Lemma sqrt_nan (x : float) : is_nan x = true -> is_nan (sqrt x) = true.
Proof.
  rewrite !is_nan_spec, sqrt_spec. intros ->. reflexivity.
Qed.

(** A difference with a non-finite operand is non-finite. *)
Lemma sub_non_finite (x y : float) :
  non_finite x = true \/ non_finite y = true -> non_finite (x - y) = true.
Proof.
  rewrite !non_finite_spec, sub_spec. unfold SF64sub, SFsub.
  destruct (Prim2SF x) as [ sx | sx | | sx mx ex ],
           (Prim2SF y) as [ sy | sy | | sy my ey ];
    cbn [SFnon_finite]; intros [H | H]; try discriminate;
    try reflexivity; try (destruct sx, sy; reflexivity).
Qed.

(** Half a non-finite number is non-finite. *)
Lemma half_non_finite (x : float) :
  non_finite x = true -> non_finite (x / of_Z 2) = true.
Proof.
  rewrite !non_finite_spec, div_spec.
  change (Prim2SF (of_Z 2)) with (S754_finite false 4503599627370496 (-51)).
  unfold SF64div, SFdiv.
  destruct (Prim2SF x) as [ sx | sx | | sx mx ex ];
    cbn [SFnon_finite]; intros H; try discriminate; reflexivity.
Qed.

(** A quotient is non-finite when the dividend is non-finite, or the
    divisor is NaN or zero. *)
Lemma div_non_finite (x r : float) :
  non_finite x = true \/ is_nan r = true \/ is_zero r = true ->
  non_finite (x / r) = true.
Proof.
  unfold is_zero. rewrite is_nan_spec, eqb_spec, !non_finite_spec, div_spec.
  change (Prim2SF zero) with (S754_zero false).
  unfold SF64div, SFdiv.
  destruct (Prim2SF x) as [ sx | sx | | sx mx ex ],
           (Prim2SF r) as [ sr | sr | | sr mr er ];
    cbn [SFnon_finite]; intros [H | [H | H]]; try discriminate;
    try reflexivity; try (destruct sr; discriminate).
Qed.

Create HintDb nan.

Section WithHost.

Variable h : Host.

Lemma sin64_nan (x : float) :
  non_finite x = true -> is_nan (sin64 h x) = true.
Proof. unfold sin64, non_finite. now intros ->. Qed.

Lemma cos64_nan (x : float) :
  non_finite x = true -> is_nan (cos64 h x) = true.
Proof. unfold cos64, non_finite. now intros ->. Qed.

Lemma asin64_nan (x : float) : is_nan x = true -> is_nan (asin64 h x) = true.
Proof. unfold asin64. now intros ->. Qed.

Lemma atan2_64_nan (y x : float) :
  is_nan y = true \/ is_nan x = true -> is_nan (atan2_64 h y x) = true.
Proof.
  unfold atan2_64.
  intros [-> | ->]; [ reflexivity | now rewrite orb_true_r ].
Qed.

#[local] Hint Resolve add_nan mul_nan sqrt_nan sin64_nan cos64_nan
  asin64_nan atan2_64_nan sub_non_finite half_non_finite : nan.

(** X13: no coordinate is validated: when a latitude or a longitude of either
    point is NaN or infinite, the distance is NaN, for every radius and
    every host. *)
Theorem ground_distance_of_non_finite
    (carto1 carto2 : Cartographic float) (radius : option float) :
  is_finite (latitude carto1) = false \/ is_finite (longitude carto1) = false
  \/ is_finite (latitude carto2) = false
  \/ is_finite (longitude carto2) = false ->
  is_nan (greatCircleGroundDistance (N := Number64 h) carto1 carto2 radius)
  = true.
Proof.
  rewrite !is_finite_false. intros Hcase.
  unfold greatCircleGroundDistance. cbv zeta.
  unfold_number_operations. cbv [Number64].
  apply mul_nan; right. apply mul_nan; right.
  apply atan2_64_nan; left. apply sqrt_nan. apply add_nan.
  destruct Hcase as [H | [H | [H | H]]].
  - left. apply mul_nan; left. auto 10 with nan.
  - right. apply mul_nan; right. auto 10 with nan.
  - left. apply mul_nan; left. auto 10 with nan.
  - right. apply mul_nan; right. auto 10 with nan.
Qed.

(** X14: nor is any argument of the destination: when the latitude, the
    distance or the bearing is NaN or infinite, or the radius is NaN or
    zero, the returned latitude and longitude are both NaN, for every
    host. *)
Theorem destination_of_non_finite
    (carto : Cartographic float) (distance bearing r : float) :
  is_finite (latitude carto) = false \/ is_finite distance = false
  \/ is_finite bearing = false \/ is_nan r = true \/ is_zero r = true ->
  is_nan (latitude (greatCircleDestination (N := Number64 h)
                      carto distance bearing (Some r))) = true
  /\ is_nan (longitude (greatCircleDestination (N := Number64 h)
                          carto distance bearing (Some r))) = true.
Proof.
  rewrite !is_finite_false. intros Hcase.
  unfold greatCircleDestination. cbv zeta.
  unfold_number_operations. cbv [Number64]. cbn [latitude longitude].
  assert (Hδ : non_finite (latitude carto) = true
               \/ non_finite bearing = true
               \/ non_finite (distance / r) = true).
  { destruct Hcase as [H | [H | [H | H]]].
    - now left.
    - right; right. apply div_non_finite. now left.
    - right. now left.
    - right; right. apply div_non_finite. now right. }
  clear Hcase. revert Hδ. generalize (distance / r). intros δ Hδ.
  split.
  - apply asin64_nan. apply add_nan.
    destruct Hδ as [H | [H | H]].
    + left. auto 10 with nan.
    + right. auto 10 with nan.
    + left. auto 10 with nan.
  - apply add_nan; right. apply atan2_64_nan; left.
    destruct Hδ as [H | [H | H]].
    + auto 10 with nan.
    + apply mul_nan; left. auto 10 with nan.
    + apply mul_nan; left. auto 10 with nan.
Qed.

End WithHost.

Lemma ground_distance_of_non_finite_witness :
  (is_finite (latitude (mkCartographic 1 infinity 0)) = false
   \/ is_finite (longitude (mkCartographic 1 infinity 0)) = false
   \/ is_finite (latitude (mkCartographic 2 1 0)) = false
   \/ is_finite (longitude (mkCartographic 2 1 0)) = false)
  /\ is_nan (greatCircleGroundDistance (N := Number64 tabulated_host)
               (mkCartographic 1 infinity 0) (mkCartographic 2 1 0) None)
     = true.
Proof.
  assert (H : is_finite (latitude (mkCartographic 1 infinity 0)) = false
              \/ is_finite (longitude (mkCartographic 1 infinity 0)) = false
              \/ is_finite (latitude (mkCartographic 2 1 0)) = false
              \/ is_finite (longitude (mkCartographic 2 1 0)) = false)
    by (left; reflexivity).
  split; [ exact H | ].
  exact (ground_distance_of_non_finite tabulated_host
           (mkCartographic 1 infinity 0) (mkCartographic 2 1 0) None H).
Defined.

Lemma destination_of_non_finite_witness :
  (is_finite (latitude (mkCartographic 1 1 0)) = false
   \/ is_finite 1000 = false \/ is_finite 2 = false
   \/ is_nan 0 = true \/ is_zero 0 = true)
  /\ is_nan (latitude (greatCircleDestination (N := Number64 tabulated_host)
                         (mkCartographic 1 1 0) 1000 2 (Some 0))) = true.
Proof.
  assert (H : is_finite (latitude (mkCartographic 1 1 0)) = false
              \/ is_finite 1000 = false \/ is_finite 2 = false
              \/ is_nan 0 = true \/ is_zero 0 = true)
    by (right; right; right; right; reflexivity).
  split; [ exact H | ].
  exact (proj1 (destination_of_non_finite tabulated_host
                  (mkCartographic 1 1 0) 1000 2 0 H)).
Defined.

End Binary64Edge.
